(** * Mailvelope: the OpenPGP.js orchestration module

    A shallow embedding of [src/modules/openpgpjs.js]: the four exported
    operations [decrypt], [encrypt], [sign], [verify] and the private helper
    [mapSignatures].

    The module is asynchronous JavaScript that talks to three collaborators:
    the [keyring] object handed in by the caller, the [unlockKey] callback and the
    functions imported from the [openpgp] package.  Every call to a
    collaborator is recorded as an [event]; an [async] function is a trace of
    events together with the state its promise ends in. *)

From stdpp Require Import base option list sorting gmap strings.

(** ** Data handled by the module *)

(** A JavaScript [Error]; the module only ever reads its [message]. *)
Record Error := { message : string }.

(** The result of a synchronous call that may throw, or of awaiting a promise
    of a collaborator: [inl e] is a throw or a rejection with [e]. *)
Abbreviation result A := (Error + A)%type.

(** [openpgp.KeyID]: the module only calls [toHex] on it. *)
Record KeyID := { bytes : string }.

(** [openpgp.Key] handles are opaque to the module, which passes them from the
    keyring to the unlock callback and to the engine. *)
Record Key := { getFingerprint : string; isPrivate : bool; isDecrypted : bool }.

(** [openpgp.Message] and [openpgp.CleartextMessage], opaque. *)
Record Message := { body : string }.

(** Payloads produced by the engine: a string or a [Uint8Array]. *)
Inductive Data :=
| Text (s : string)
| Binary (b : list Byte.byte).

(** [openpgp.Signature]: a packet list; packets carry a creation date. *)
Record SignaturePacket := { packet_created : option nat }.
Record Signature := { packets : list SignaturePacket }.

(** One entry of the engine's [signatures] array.  [verified] is a
    [Promise<true>]: it resolves to [true] or rejects; [signature] is a
    promise of the parsed signature. *)
Record VerificationResult := {
  keyID : KeyID;
  verified : result unit;
  signature : result Signature
}.

(** The three values [sig.valid] takes: [true], [false] and [null]. *)
Inductive Trust := Valid | Invalid | Unknown.

(** The object [sig] built by [mapSignatures]; properties that were never
    assigned (or assigned [undefined]) are [None]. *)
Record SigRecord := {
  keyId : string;
  valid : Trust;
  created : option nat;
  fingerprint : option string
}.

(** The [{data, signatures}] objects of the engine (raw signatures) and of
    [decrypt] and [verify] (mapped signatures). *)
Record Result (S : Type) := { data : Data; signatures : list S }.
Arguments data {S} _.
Arguments signatures {S} _.

(** The optional [senderAddress] option of [decrypt]: absent, one address, or
    an array of addresses. *)
Inductive AddressArg :=
| NoAddress
| OneAddress (email : string)
| Addresses (emails : list string).

(** The argument of [keyring.getPrivateKeyByIds]: the key IDs a message is
    encrypted for ([decrypt]) or one fingerprint ([encrypt], [sign]). *)
Inductive KeyQuery :=
| ByKeyIds (ids : list KeyID)
| ByFingerprint (fpr : string).

(** An element of [signingKeyIds] in [verify]: a string or a [KeyID]. *)
Inductive KeyIdArg :=
| IdString (s : string)
| IdObject (k : KeyID).

(** The argument of [createMessage]: [{text}] or [{binary}]. *)
Inductive MessageSource :=
| FromText (text : string)
| FromBinary (binary : list Byte.byte).

(** ** Collaborators *)

(** The [keyring] object.  [getKeyByAddress] is awaited and yields an object
    that maps an address to an array of keys; [keystore_getKeysForId] is
    [keyring.keystore.getKeysForId], which yields an array or nothing. *)
Record Keyring := {
  getPrivateKeyByIds : KeyQuery → result Key;
  getKeyByAddress : list string → result (gmap string (list Key));
  getKeysByFprs : list string → result (list Key);
  getFprForKeyId : string → result string;
  keystore_getKeysForId : string → bool → option (list Key)
}.

(** The functions imported from [openpgp].  [verificationKeys] of
    [pgpDecrypt] is [undefined] ([None]) or an array; [signingKeys] of
    [pgpEncrypt] is [undefined] or one key; the array given to [pgpVerify]
    may hold [undefined] entries. *)
Class OpenPGP := {
  toHex : KeyID → string;
  pgpDecrypt : Message → Key → option (list Key) → option string →
               result (Result VerificationResult);
  createMessage : MessageSource → option string → result Message;
  pgpEncrypt : option Message → list Key → option Key → string → result Data;
  createCleartextMessage : string → result Message;
  pgpSign : Message → list Key → result Data;
  readSignature : string → result Signature;
  pgpVerify : option Message → list (option Key) → option Signature →
              result (Result VerificationResult)
}.

(** ** Events and asynchronous computations *)

Inductive event :=
| call_getPrivateKeyByIds (q : KeyQuery)
| call_unlockKey (key : Key)
| call_getKeyByAddress (emails : list string)
| call_getKeysByFprs (fprs : list string)
| call_getFprForKeyId (id : string)
| call_getKeysForId (id : string) (exact : bool)
| call_pgpDecrypt (m : Message) (decryptionKeys : Key)
    (verificationKeys : option (list Key)) (format : option string)
| call_createMessage (src : MessageSource) (filename : option string)
| call_pgpEncrypt (m : option Message) (encryptionKeys : list Key)
    (signingKeys : option Key) (format : string)
| call_createCleartextMessage (text : string)
| call_pgpSign (m : Message) (signingKeys : list Key)
| call_readSignature (armoredSignature : string)
| call_pgpVerify (m : option Message) (verificationKeys : list (option Key))
    (sig : option Signature)
| console_log (text : string) (e : Error).

(** The state a promise ends in. *)
Inductive outcome (A : Type) :=
| Fulfilled (a : A)
| Rejected (e : Error)
| Pending.
Arguments Fulfilled {A} a.
Arguments Rejected {A} e.
Arguments Pending {A}.

(** An [async] function body: the collaborator calls it makes, in order, and
    the state of the promise it returns. *)
Definition async (A : Type) : Type := list event * outcome A.

Definition trace {A} (m : async A) : list event := m.1.
Definition settled {A} (m : async A) : outcome A := m.2.

#[export] Instance async_ret : MRet async := λ A a, ([], Fulfilled a).

#[export] Instance async_bind : MBind async := λ A B k m,
  match m.2 with
  | Fulfilled a => (m.1 ++ (k a).1, (k a).2)
  | Rejected e => (m.1, Rejected e)
  | Pending => (m.1, Pending)
  end.

(** Calling (and, for a promise, awaiting) a collaborator. *)
Definition call {A} (ev : event) (r : result A) : async A :=
  ([ev], match r with inl e => Rejected e | inr a => Fulfilled a end).

(** [try { m } catch (e) { h e }]. *)
Definition try_catch {A} (m : async A) (h : Error → async A) : async A :=
  match m.2 with
  | Rejected e => (m.1 ++ (h e).1, (h e).2)
  | _ => m
  end.

(** Events that happen before a computation [m]. *)
Definition after {A} (tr : list event) (m : async A) : async A :=
  (tr ++ m.1, m.2).

(** ** [Promise.all]

    The promises of [tasks] settle in some order, each one filling its own
    slot of the [values] array; the combined promise is fulfilled with the
    array once no slot is left empty, and rejected as soon as one task is.
    Each task here performs its collaborator calls in one synchronous run
    just before it settles, so the combined trace is the tasks' traces in
    settling order. *)
Fixpoint await_all {A} (tasks : list (async A)) (order : list nat)
    (values : list (option A)) : async (list A) :=
  match mapM id values with
  | Some vs => ([], Fulfilled vs)
  | None =>
    match order with
    | [] => ([], Pending)
    | i :: order' =>
      match tasks !! i with
      | Some (tr, Fulfilled v) =>
          after tr (await_all tasks order' (<[i := Some v]> values))
      | Some (tr, Rejected e) => (tr, Rejected e)
      | Some (tr, Pending) => after tr (await_all tasks order' values)
      | None => await_all tasks order' values
      end
    end
  end.

(** Task [i] settles at time [times !! i] (time [0] when the list is too
    short); [settle_order] lists the task indices by settling time. *)
Definition settle_time (times : list nat) (i : nat) : nat := default 0 (times !! i).

Definition settles_no_later (times : list nat) (i j : nat) : Prop :=
  settle_time times i ≤ settle_time times j.

#[export] Instance settles_no_later_dec times i j :
  Decision (settles_no_later times i j).
Proof. unfold settles_no_later. apply _. Defined.

Definition settle_order (times : list nat) (n : nat) : list nat :=
  merge_sort (settles_no_later times) (seq 0 n).

Definition Promise_all {A} (times : list nat) (tasks : list (async A)) :
    async (list A) :=
  await_all tasks (settle_order times (length tasks))
            (replicate (length tasks) None).

(** ** The module *)

(** JavaScript truthiness of an optional string: [undefined] and the empty
    string are falsy. *)
Definition truthy (s : option string) : bool :=
  match s with
  | Some s => negb (String.eqb s "")
  | None => false
  end.

(** Awaiting a promise the code already holds. *)
Definition await {A} (p : result A) : async A :=
  ([], match p with inl e => Rejected e | inr a => Fulfilled a end).

(** [for (const x of l) { acc = body acc x }]. *)
Fixpoint for_of {A B} (body : B → A → async B) (l : list A) (acc : B) :
    async B :=
  match l with
  | [] => mret acc
  | x :: l' => acc' ← body acc x; for_of body l' acc'
  end.

Section Module_openpgpjs.
Context `{OpenPGP}.

(** The helpers imported from [../lib/util]; their source is not part of
    this module.  [Uint8Array2str] receives whatever payload the engine
    returned. *)
Variable toArray : AddressArg → list string.
Variable Uint8Array2str : Data → string.
Variable dataURL2str : string → string.
Variable str2Uint8Array : string → list Byte.byte.

(** The pattern [/^Could not find signing key with key ID/]. *)
Definition no_signing_key : string := "Could not find signing key with key ID".

(** Lines 55-59: [sig.valid] from the verification handle. *)
Definition verified_valid (raw : VerificationResult) : async Trust :=
  try_catch
    (_ ← await (verified raw); mret Valid)
    (λ e, mret (if String.prefix no_signing_key (message e)
                then Unknown else Invalid)).

(** Lines 60-62: [sig.created], left out when the signature cannot be
    read or has no first packet. *)
Definition signature_created (raw : VerificationResult) :
    async (option nat) :=
  try_catch
    (s ← await (signature raw);
     mret (p ← head (packets s); packet_created p))
    (λ _, mret None).

(** The callback of [signatures.map] in [mapSignatures]. *)
Definition mapSignature (keyring : Keyring) (raw : VerificationResult) :
    async SigRecord :=
  let sig_keyId := toHex (keyID raw) in
  sig_valid ← verified_valid raw;
  sig_created ← signature_created raw;
  '(sig_valid, sig_fingerprint) ←
    match sig_valid with
    | Valid | Invalid =>
      try_catch
        (fpr ← call (call_getFprForKeyId sig_keyId)
                    (getFprForKeyId keyring sig_keyId);
         mret (sig_valid, Some fpr))
        (λ e, ([console_log "Error mapping keyId to fingerprint" e],
               Fulfilled (Invalid, None)))
    | Unknown => mret (sig_valid, None)
    end;
  mret {| keyId := sig_keyId; valid := sig_valid;
          created := sig_created; fingerprint := sig_fingerprint |}.

Definition mapSignatures (times : list nat)
    (signatures : list VerificationResult) (keyring : Keyring) :
    async (list SigRecord) :=
  Promise_all times (mapSignature keyring <$> signatures).

(** Lines 26-42 of [decrypt]: the [signingKeys] that are handed to the
    engine as [verificationKeys]; [senderAddress] is the normalized array
    and [None] is the [signingKeys] left [undefined]. *)
Definition decrypt_signingKeys (keyring : Keyring)
    (senderAddress : list string) (selfSigned : bool) (privateKey : Key) :
    async (option (list Key)) :=
  if negb (bool_decide (senderAddress = [])) || selfSigned then
    signingKeys ←
      (if negb (bool_decide (senderAddress = [])) then
         signingKeys ← call (call_getKeyByAddress senderAddress)
                            (getKeyByAddress keyring senderAddress);
         mret (foldl (λ result email,
                        result ++ default [] (signingKeys !! email))
                     [] senderAddress)
       else mret []);
    mret (Some (if bool_decide (signingKeys = [])
                then [privateKey] else signingKeys))
  else mret None.

Definition decrypt (times : list nat) (message : Message)
    (keyring : Keyring) (senderAddress : AddressArg) (selfSigned : bool)
    (encryptionKeyIds : list KeyID) (unlockKey : Key → result Key)
    (format : option string) : async (Result SigRecord) :=
  privateKey ← call (call_getPrivateKeyByIds (ByKeyIds encryptionKeyIds))
                    (getPrivateKeyByIds keyring (ByKeyIds encryptionKeyIds));
  privateKey ← call (call_unlockKey privateKey) (unlockKey privateKey);
  let senderAddress := toArray senderAddress in
  signingKeys ← decrypt_signingKeys keyring senderAddress selfSigned privateKey;
  result ← call (call_pgpDecrypt message privateKey signingKeys format)
                (pgpDecrypt message privateKey signingKeys format);
  result_signatures ← mapSignatures times (signatures result) keyring;
  mret {| data := if bool_decide (format = Some "binary")
                  then Text (Uint8Array2str (data result))
                  else data result;
          signatures := result_signatures |}.

(** Lines 89-96 of [encrypt]: the plaintext [message], left [undefined]
    when neither [data] nor [dataURL] is given. *)
Definition encrypt_message (data dataURL filename : option string) :
    async (option Message) :=
  if truthy data then
    message ← call (call_createMessage (FromText (default "" data)) filename)
                   (createMessage (FromText (default "" data)) filename);
    mret (Some message)
  else if truthy dataURL then
    let content := dataURL2str (default "" dataURL) in
    let data := str2Uint8Array content in
    message ← call (call_createMessage (FromBinary data) filename)
                   (createMessage (FromBinary data) filename);
    mret (Some message)
  else mret None.

(** Lines 97-100 of [encrypt]: the unlocked [signingKey], left [undefined]
    without a [signingKeyFpr]. *)
Definition encrypt_signingKey (keyring : Keyring)
    (unlockKey : Key → result Key) (signingKeyFpr : option string) :
    async (option Key) :=
  if truthy signingKeyFpr then
    let fpr := ByFingerprint (default "" signingKeyFpr) in
    signingKey ← call (call_getPrivateKeyByIds fpr)
                      (getPrivateKeyByIds keyring fpr);
    signingKey ← call (call_unlockKey signingKey) (unlockKey signingKey);
    mret (Some signingKey)
  else mret None.

Definition encrypt (data dataURL : option string) (keyring : Keyring)
    (unlockKey : Key → result Key) (encryptionKeyFprs : list string)
    (signingKeyFpr filename : option string) (armor : bool) : async Data :=
  message ← encrypt_message data dataURL filename;
  signingKey ← encrypt_signingKey keyring unlockKey signingKeyFpr;
  keys ← call (call_getKeysByFprs encryptionKeyFprs)
              (getKeysByFprs keyring encryptionKeyFprs);
  let format := if armor then "armored" else "binary" in
  result ← call (call_pgpEncrypt message keys signingKey format)
                (pgpEncrypt message keys signingKey format);
  mret (if armor then result else Text (Uint8Array2str result)).

Definition sign (data : string) (keyring : Keyring)
    (unlockKey : Key → result Key) (signingKeyFpr : string) : async Data :=
  message ← call (call_createCleartextMessage data)
                 (createCleartextMessage data);
  signingKey ← call (call_getPrivateKeyByIds (ByFingerprint signingKeyFpr))
                    (getPrivateKeyByIds keyring (ByFingerprint signingKeyFpr));
  signingKey ← call (call_unlockKey signingKey) (unlockKey signingKey);
  result ← call (call_pgpSign message [signingKey])
                (pgpSign message [signingKey]);
  mret result.

(** [typeof keyId === 'string' ? keyId : keyId.toHex()]. *)
Definition hex_id (keyId : KeyIdArg) : string :=
  match keyId with
  | IdString s => s
  | IdObject k => toHex k
  end.

(** The body of the [for ... of signingKeyIds] loop of [verify];
    [keys[0]] of an empty array is [undefined]. *)
Definition push_signing_key (keyring : Keyring)
    (signingKeys : list (option Key)) (keyId : KeyIdArg) :
    async (list (option Key)) :=
  keys ← call (call_getKeysForId (hex_id keyId) true)
              (inr (keystore_getKeysForId keyring (hex_id keyId) true));
  match keys with
  | Some keys => mret (signingKeys ++ [head keys])
  | None => mret signingKeys
  end.

(** Lines 132-139 of [verify]. *)
Definition verify_signingKeys (keyring : Keyring)
    (signingKeyIds : list KeyIdArg) : async (list (option Key)) :=
  for_of (push_signing_key keyring) signingKeyIds [].

(** Lines 140-144 of [verify]: with a plaintext and a detached signature,
    the signature is parsed and the message rebuilt from the plaintext. *)
Definition verify_detached (message : option Message)
    (plaintext detachedSignature : option string) :
    async (option Signature * option Message) :=
  if truthy plaintext && truthy detachedSignature then
    signature ← call (call_readSignature (default "" detachedSignature))
                     (readSignature (default "" detachedSignature));
    message ← call (call_createMessage (FromText (default "" plaintext)) None)
                   (createMessage (FromText (default "" plaintext)) None);
    mret (Some signature, Some message)
  else mret (None, message).

Definition verify (times : list nat) (message : option Message)
    (plaintext detachedSignature : option string) (keyring : Keyring)
    (signingKeyIds : list KeyIdArg) : async (Result SigRecord) :=
  signingKeys ← verify_signingKeys keyring signingKeyIds;
  '(signature, message) ← verify_detached message plaintext detachedSignature;
  r ← call (call_pgpVerify message signingKeys signature)
           (pgpVerify message signingKeys signature);
  signatures ← mapSignatures times (signatures r) keyring;
  mret {| data := data r; signatures := signatures |}.

End Module_openpgpjs.

(** ** Vocabulary of the properties *)

(** Computation [m] is fulfilled with [v]. *)
Definition fulfils {A} (m : async A) (v : A) : Prop := settled m = Fulfilled v.

(** Computation [m] is rejected. *)
Definition rejects {A} (m : async A) : Prop := ∃ e, settled m = Rejected e.

(** The engine's [decrypt], [encrypt] and [sign]. *)
Definition crypto_call (ev : event) : Prop :=
  match ev with
  | call_pgpDecrypt _ _ _ _ | call_pgpEncrypt _ _ _ _ | call_pgpSign _ _ => True
  | _ => False
  end.

(** The only collaborator calls made while mapping signatures. *)
Definition mapper_event (ev : event) : Prop :=
  match ev with
  | call_getFprForKeyId _ | console_log _ _ => True
  | _ => False
  end.

(** Record [r] is what the callback of [mapSignatures] returns for [raw]. *)
Definition mapped `{OpenPGP} (keyring : Keyring) (raw : VerificationResult)
    (r : SigRecord) : Prop :=
  fulfils (mapSignature keyring raw) r.

(** A record carries a fingerprint only when its [valid] is not [null]. *)
Definition fingerprint_only_if_known (r : SigRecord) : Prop :=
  valid r = Unknown → fingerprint r = None.

(** The operation stopped with an error and never reached the engine's
    [decrypt], [encrypt] or [sign]. *)
Definition aborts_before_engine {A} (m : async A) : Prop :=
  rejects m ∧ Forall (λ ev, ¬ crypto_call ev) (trace m).

(** The private key for [q] cannot be obtained: the keyring throws, or the
    unlock callback rejects. *)
Definition key_unavailable (keyring : Keyring) (unlockKey : Key → result Key)
    (q : KeyQuery) : Prop :=
  match getPrivateKeyByIds keyring q with
  | inl _ => True
  | inr key => ∃ e, unlockKey key = inl e
  end.

(** The keys found for the addresses [emails], flattened in their order. *)
Definition flattened (found : gmap string (list Key)) (emails : list string) :
    list Key :=
  emails ≫= λ email, default [] (found !! email).

(** What one element of [signingKeyIds] adds to the verification keys of
    [verify]: the first of the keys found for it, if any were found. *)
Definition first_key `{OpenPGP} (keyring : Keyring) (keyId : KeyIdArg) :
    list (option Key) :=
  match keystore_getKeysForId keyring (hex_id keyId) true with
  | Some keys => [head keys]
  | None => []
  end.

(** The addresses named by a [senderAddress] option. *)
Definition addresses_of (a : AddressArg) : list string :=
  match a with
  | NoAddress => []
  | OneAddress email => [email]
  | Addresses emails => emails
  end.

(** Removing repeated addresses, keeping the first occurrence of each. *)
Fixpoint deDup (emails : list string) : list string :=
  match emails with
  | [] => []
  | email :: emails' => email :: filter (λ other, other ≠ email) (deDup emails')
  end.

(** Modelled from the spec: [toArray] of [../lib/util], whose source is not
    part of this module.  The sender addresses are normalized to a list, which
    may be empty, and deduplicated before the keyring lookup; the order of the
    addresses is kept. *)
Definition toArray_spec (a : AddressArg) : list string :=
  deDup (addresses_of a).

(** ** Sample collaborators

    A small keyring, unlock callbacks and an engine stub on which the
    operations can be run. *)

Module Sample.

Definition alice_locked : Key :=
  {| getFingerprint := "a11ce"; isPrivate := true; isDecrypted := false |}.
Definition alice : Key :=
  {| getFingerprint := "a11ce"; isPrivate := true; isDecrypted := true |}.
Definition bob : Key :=
  {| getFingerprint := "b0b"; isPrivate := false; isDecrypted := false |}.
Definition bob_old : Key :=
  {| getFingerprint := "b0b0"; isPrivate := false; isDecrypted := false |}.

Definition no_key : Error := {| message := "No key found" |}.
Definition cancelled : Error := {| message := "pwd-dialog-cancel" |}.

(** Verified signature of bob, whose fingerprint the keyring knows. *)
Definition by_bob : VerificationResult :=
  {| keyID := {| bytes := "b0b" |};
     verified := inr ();
     signature := inr {| packets := [{| packet_created := Some 1700 |}] |} |}.

(** Verified signature of a key whose fingerprint the keyring lacks. *)
Definition by_carol : VerificationResult :=
  {| keyID := {| bytes := "ca401" |};
     verified := inr ();
     signature := inr {| packets := [] |} |}.

(** Signature that could not be checked for want of a key. *)
Definition by_stranger : VerificationResult :=
  {| keyID := {| bytes := "5714" |};
     verified :=
       inl {| message := "Could not find signing key with key ID 5714" |};
     signature := inl {| message := "Could not find signing key" |} |}.

(** Signature that does not match the data. *)
Definition forged : VerificationResult :=
  {| keyID := {| bytes := "b0b" |};
     verified := inl {| message := "Signed digest did not match" |};
     signature := inr {| packets := [{| packet_created := None |}] |} |}.

Definition keyring : Keyring :=
  {| getPrivateKeyByIds q :=
       match q with
       | ByKeyIds _ => inr alice_locked
       | ByFingerprint fpr =>
           if String.eqb fpr "a11ce" then inr alice_locked else inl no_key
       end;
     getKeyByAddress emails :=
       inr {[ "bob@example.org" := [bob; bob_old] ]};
     getKeysByFprs fprs :=
       inr (fprs ≫= λ fpr, if String.eqb fpr "b0b" then [bob] else []);
     getFprForKeyId id :=
       if String.eqb id "b0b" then inr "b0b" else inl no_key;
     keystore_getKeysForId id exact :=
       if String.eqb id "b0b" then Some [bob; bob_old] else None |}.

(** A keyring without private keys. *)
Definition empty_keyring : Keyring :=
  {| getPrivateKeyByIds q := inl no_key;
     getKeyByAddress emails := inr ∅;
     getKeysByFprs fprs := inr [];
     getFprForKeyId id := inl no_key;
     keystore_getKeysForId id exact := None |}.

Definition unlockKey (key : Key) : result Key :=
  inr {| getFingerprint := getFingerprint key; isPrivate := isPrivate key;
         isDecrypted := true |}.

(** The user dismisses the passphrase dialog. *)
Definition cancel (key : Key) : result Key := inl cancelled.

(** An engine that reports every signature of a message, checked or not:
    without verification keys it still lists the signature it found. *)
Definition engine : OpenPGP :=
  {| toHex := bytes;
     pgpDecrypt m key verificationKeys format :=
       inr {| data := Text (body m);
              signatures := match verificationKeys with
                            | Some _ => [by_carol; by_bob; forged]
                            | None => [by_stranger]
                            end |};
     createMessage src filename :=
       inr {| body := match src with
                      | FromText text => text
                      | FromBinary _ => "binary"
                      end |};
     pgpEncrypt m keys signingKey format := inr (Text "ciphertext");
     createCleartextMessage text := inr {| body := text |};
     pgpSign m keys := inr (Text "signed");
     readSignature armored := inr {| packets := [] |};
     pgpVerify m keys sig :=
       inr {| data := Text "text"; signatures := [by_stranger] |} |}.

Definition Uint8Array2str (d : Data) : string :=
  match d with
  | Text s => s
  | Binary b => String.string_of_list_byte b
  end.

Definition dataURL2str (url : string) : string := url.

Definition str2Uint8Array (s : string) : list Byte.byte :=
  String.list_byte_of_string s.

Definition hello : Message := {| body := "hello" |}.

End Sample.

(** ** Reasoning about asynchronous computations *)

Lemma settled_bind {A B} (m : async A) (k : A → async B) :
  settled (m ≫= k) =
  match settled m with
  | Fulfilled a => settled (k a)
  | Rejected e => Rejected e
  | Pending => Pending
  end.
Proof. unfold settled, mbind, async_bind. by destruct m.2. Qed.

Lemma trace_bind {A B} (m : async A) (k : A → async B) :
  trace (m ≫= k) =
  trace m ++ match settled m with Fulfilled a => trace (k a) | _ => [] end.
Proof.
  unfold settled, trace, mbind, async_bind.
  destruct m.2; simpl; by rewrite ?app_nil_r.
Qed.

Lemma settled_call {A} ev (r : result A) :
  settled (call ev r) =
  match r with inl e => Rejected e | inr a => Fulfilled a end.
Proof. done. Qed.

Lemma trace_call {A} ev (r : result A) : trace (call ev r) = [ev].
Proof. done. Qed.

Lemma settled_ret {A} (a : A) : settled (mret a) = Fulfilled a.
Proof. done. Qed.

Lemma trace_ret {A} (a : A) : trace (mret a : async A) = [].
Proof. done. Qed.

Lemma async_eq {A} (m : async A) tr o :
  trace m = tr → settled m = o → m = (tr, o).
Proof. destruct m. unfold trace, settled. simpl. congruence. Qed.

Lemma settled_after {A} tr (m : async A) : settled (after tr m) = settled m.
Proof. done. Qed.

Lemma trace_after {A} tr (m : async A) : trace (after tr m) = tr ++ trace m.
Proof. done. Qed.

(** ** [Promise.all] fills every slot, whatever the settling order *)

Section Promise_all.
Context {A : Type}.
Implicit Types (tasks : list (async A)) (vs : list A)
               (values : list (option A)) (order : list nat).

Lemma all_filled values vs :
  length values = length vs →
  (∀ i, i < length vs → ∃ v, values !! i = Some (Some v) ∧ vs !! i = Some v) →
  mapM id values = Some vs.
Proof.
  intros Hlen Hall. apply mapM_Some, Forall2_same_length_lookup.
  split; [done|]. intros i x v Hx Hv.
  destruct (Hall i) as (w & Hw & Hw'); [by eapply lookup_lt_Some|].
  simpl. congruence.
Qed.

Lemma filled_agree values vs ws :
  length values = length vs →
  (∀ i v, values !! i = Some (Some v) → vs !! i = Some v) →
  mapM id values = Some ws → ws = vs.
Proof.
  intros Hlen Hok Hws. apply mapM_Some in Hws.
  pose proof (Forall2_length _ _ _ Hws) as Hlen'.
  apply (list_eq_same_length _ _ (length vs)); [done|lia|].
  intros i w v _ Hw Hv.
  destruct (Forall2_lookup_r _ _ _ _ _ Hws Hw) as (x & Hx & Hid).
  simpl in Hid. subst x. specialize (Hok _ _ Hx). congruence.
Qed.

Lemma await_all_fulfilled tasks vs order values :
  Forall2 fulfils tasks vs →
  length values = length vs →
  (∀ i v, values !! i = Some (Some v) → vs !! i = Some v) →
  (∀ i, i < length vs → i ∈ order ∨ ∃ v, values !! i = Some (Some v)) →
  settled (await_all tasks order values) = Fulfilled vs.
Proof.
  intros Htasks. revert values.
  induction order as [|i order IH]; intros values Hlen Hok Hcov; simpl.
  - destruct (mapM id values) as [ws|] eqn:Hm.
    + by rewrite (filled_agree values vs ws).
    + rewrite (all_filled values vs) in Hm; [done..|].
      intros i Hi. destruct (Hcov i Hi) as [Hin|[v Hv]].
      * by apply elem_of_nil in Hin.
      * eauto.
  - destruct (mapM id values) as [ws|] eqn:Hm.
    { by rewrite (filled_agree values vs ws). }
    assert (∀ j, j < length vs → j ≠ i →
                 j ∈ order ∨ ∃ v, values !! j = Some (Some v)) as Hcov'.
    { intros j Hj Hne. destruct (Hcov j Hj) as [Hin|?]; [|by right].
      apply elem_of_cons in Hin as [?|?]; [done|by left]. }
    destruct (tasks !! i) as [[tr o]|] eqn:Hti.
    + destruct (Forall2_lookup_l _ _ _ _ _ Htasks Hti) as (v & Hv & Hful).
      unfold fulfils, settled in Hful. simpl in Hful. subst o.
      rewrite settled_after. apply IH.
      * by rewrite length_insert.
      * intros j w. destruct (decide (i = j)) as [<-|Hne].
        -- rewrite list_lookup_insert_eq; [congruence|].
           rewrite Hlen. by eapply lookup_lt_Some.
        -- rewrite list_lookup_insert_ne; [apply Hok|done].
      * intros j Hj. destruct (decide (i = j)) as [<-|Hne].
        -- right. exists v. apply list_lookup_insert_eq. by rewrite Hlen.
        -- rewrite list_lookup_insert_ne; [|done]. by apply Hcov'.
    + apply IH; [done..|].
      intros j Hj. apply Hcov'; [done|]. intros ->.
      apply lookup_ge_None_1 in Hti.
      pose proof (Forall2_length _ _ _ Htasks) as Hn.
      rewrite <- Hn in Hj. by apply Nat.lt_nge in Hj.
Qed.

Lemma settle_order_covers times n i : i < n → i ∈ settle_order times n.
Proof.
  intros Hi. unfold settle_order.
  rewrite merge_sort_Permutation. apply elem_of_seq. lia.
Qed.

(** When every task is fulfilled, [Promise.all] is fulfilled with the
    tasks' values in the order of the tasks. *)
Lemma Promise_all_fulfilled times tasks vs :
  Forall2 fulfils tasks vs →
  settled (Promise_all times tasks) = Fulfilled vs.
Proof.
  intros Htasks. unfold Promise_all.
  pose proof (Forall2_length _ _ _ Htasks) as Hlen.
  apply await_all_fulfilled; [done|..].
  - by rewrite length_replicate.
  - intros i v [? _]%lookup_replicate. done.
  - intros i Hi. left. apply settle_order_covers. lia.
Qed.

(** The events of [Promise.all] are events of its tasks. *)
Lemma await_all_trace (P : event → Prop) tasks order values :
  Forall (λ t, Forall P (trace t)) tasks →
  Forall P (trace (await_all tasks order values)).
Proof.
  intros Htasks. revert values.
  induction order as [|i order IH]; intros values; simpl.
  - destruct (mapM id values); by constructor.
  - destruct (mapM id values); [by constructor|].
    destruct (tasks !! i) as [[tr o]|] eqn:Hti; [|apply IH].
    pose proof (Forall_lookup_1 _ _ _ _ Htasks Hti) as Htr.
    unfold trace in Htr. simpl in Htr.
    destruct o; rewrite ?trace_after; try apply Forall_app; auto.
Qed.

Lemma Promise_all_trace (P : event → Prop) times tasks :
  Forall (λ t, Forall P (trace t)) tasks →
  Forall P (trace (Promise_all times tasks)).
Proof. apply await_all_trace. Qed.

End Promise_all.

(** ** The signature mapper *)

Section Mapper.
Context `{OpenPGP}.
Implicit Types (keyring : Keyring) (raw : VerificationResult)
               (r : SigRecord).

Lemma verified_valid_total raw :
  ∃ t, verified_valid raw = ([], Fulfilled t).
Proof.
  unfold verified_valid. destruct (verified raw) as [e|[]]; simpl.
  - unfold try_catch; simpl. eauto.
  - eauto.
Qed.

Lemma signature_created_total raw :
  ∃ c, signature_created raw = ([], Fulfilled c).
Proof.
  unfold signature_created. destruct (signature raw); simpl; eauto.
Qed.

(** The callback never rejects: each of its fallible steps sits in a
    [try]. *)
Lemma mapSignature_total keyring raw : ∃ r, mapped keyring raw r.
Proof.
  unfold mapped, fulfils, mapSignature.
  destruct (verified_valid_total raw) as [t ->].
  destruct (signature_created_total raw) as [c ->].
  destruct t; simpl; eauto;
    destruct (getFprForKeyId keyring _); simpl; eauto.
Qed.

Lemma mapSignature_trace keyring raw :
  Forall mapper_event (trace (mapSignature keyring raw)).
Proof.
  unfold mapSignature.
  destruct (verified_valid_total raw) as [t ->].
  destruct (signature_created_total raw) as [c ->].
  destruct t; simpl; try by constructor.
  all: destruct (getFprForKeyId keyring _); simpl;
    repeat constructor.
Qed.

Lemma mapSignatures_mapped keyring (raws : list VerificationResult) :
  ∃ records, Forall2 (mapped keyring) raws records.
Proof.
  induction raws as [|raw raws [records IH]]; [by exists []|].
  destruct (mapSignature_total keyring raw) as [r Hr].
  exists (r :: records). by constructor.
Qed.

Lemma mapSignatures_fulfilled times keyring raws records :
  Forall2 (mapped keyring) raws records →
  fulfils (mapSignatures times raws keyring) records.
Proof.
  intros Hmap. apply Promise_all_fulfilled. by apply Forall2_fmap_l.
Qed.

Lemma mapSignatures_inv times keyring raws records :
  fulfils (mapSignatures times raws keyring) records →
  Forall2 (mapped keyring) raws records.
Proof.
  intros Hful. destruct (mapSignatures_mapped keyring raws) as [rs Hrs].
  pose proof (mapSignatures_fulfilled times _ _ _ Hrs) as Hful'.
  unfold fulfils in *. congruence.
Qed.

Lemma mapSignatures_trace times keyring raws :
  Forall mapper_event (trace (mapSignatures times raws keyring)).
Proof.
  apply Promise_all_trace, Forall_fmap, Forall_forall.
  intros raw _. apply mapSignature_trace.
Qed.

End Mapper.

(** ** Running the operations *)

(** Rewriting a computation into the outcomes and traces of its steps. *)
Ltac async_unfold :=
  rewrite ?settled_bind, ?trace_bind, ?settled_call, ?trace_call,
    ?settled_ret, ?trace_ret.

Section Operations.
Context `{OpenPGP}.
Variable toArray : AddressArg → list string.
Variable Uint8Array2str : Data → string.
Variable dataURL2str : string → string.
Variable str2Uint8Array : string → list Byte.byte.
Implicit Types (keyring : Keyring) (unlockKey : Key → result Key).

Lemma decrypt_fulfilled_inv times message keyring senderAddress selfSigned
    encryptionKeyIds unlockKey format res :
  fulfils (decrypt toArray Uint8Array2str times message keyring senderAddress
             selfSigned encryptionKeyIds unlockKey format) res →
  ∃ key privateKey signingKeys raw,
    getPrivateKeyByIds keyring (ByKeyIds encryptionKeyIds) = inr key ∧
    unlockKey key = inr privateKey ∧
    fulfils (decrypt_signingKeys keyring (toArray senderAddress) selfSigned
               privateKey) signingKeys ∧
    pgpDecrypt message privateKey signingKeys format = inr raw ∧
    Forall2 (mapped keyring) (signatures raw) (signatures res) ∧
    data res = (if bool_decide (format = Some "binary")
                then Text (Uint8Array2str (data raw)) else data raw).
Proof.
  unfold fulfils, decrypt. async_unfold.
  destruct (getPrivateKeyByIds keyring _) as [e|key] eqn:Hkey; [done|].
  async_unfold.
  destruct (unlockKey key) as [e|privateKey] eqn:Hunlock; [done|].
  async_unfold.
  destruct (settled (decrypt_signingKeys _ _ _ _)) as [signingKeys| |] eqn:Hsk;
    [|done..].
  async_unfold.
  destruct (pgpDecrypt _ _ _ _) as [e|raw] eqn:Hraw; [done|].
  async_unfold.
  destruct (settled (mapSignatures _ _ _)) as [records| |] eqn:Hrec; [|done..].
  async_unfold. intros [= <-].
  exists key, privateKey, signingKeys, raw. simpl.
  repeat split; try done. by eapply mapSignatures_inv.
Qed.

(** [reduce] with [concat] flattens the per-address arrays in order. *)
Lemma reduce_concat {K V} (f : K → list V) (l : list K) (init : list V) :
  foldl (λ result x, result ++ f x) init l = init ++ (l ≫= f).
Proof.
  revert init. induction l as [|x l IH]; intros init; simpl.
  - by rewrite app_nil_r.
  - by rewrite IH, app_assoc.
Qed.

Lemma decrypt_signingKeys_none keyring privateKey :
  decrypt_signingKeys keyring [] false privateKey = ([], Fulfilled None).
Proof. done. Qed.

Lemma decrypt_signingKeys_self keyring privateKey :
  decrypt_signingKeys keyring [] true privateKey =
  ([], Fulfilled (Some [privateKey])).
Proof. done. Qed.

Lemma decrypt_signingKeys_lookup keyring emails selfSigned privateKey :
  emails ≠ [] →
  decrypt_signingKeys keyring emails selfSigned privateKey =
  ([call_getKeyByAddress emails],
   match getKeyByAddress keyring emails with
   | inl e => Rejected e
   | inr found =>
       Fulfilled (Some (if bool_decide (flattened found emails = [])
                        then [privateKey] else flattened found emails))
   end).
Proof.
  intros Hne. unfold decrypt_signingKeys, flattened.
  rewrite (bool_decide_eq_false_2 _ Hne). simpl.
  destruct (getKeyByAddress keyring emails) as [e|found]; [done|].
  unfold mbind at 1 2, async_bind; simpl. by rewrite reduce_concat.
Qed.

Lemma decrypt_trace times message keyring senderAddress selfSigned
    encryptionKeyIds unlockKey format :
  trace (decrypt toArray Uint8Array2str times message keyring senderAddress
           selfSigned encryptionKeyIds unlockKey format) =
  call_getPrivateKeyByIds (ByKeyIds encryptionKeyIds) ::
  match getPrivateKeyByIds keyring (ByKeyIds encryptionKeyIds) with
  | inl _ => []
  | inr key =>
    call_unlockKey key ::
    match unlockKey key with
    | inl _ => []
    | inr privateKey =>
      let signingKeys :=
        decrypt_signingKeys keyring (toArray senderAddress) selfSigned
          privateKey in
      trace signingKeys ++
      match settled signingKeys with
      | Fulfilled signingKeys =>
        call_pgpDecrypt message privateKey signingKeys format ::
        match pgpDecrypt message privateKey signingKeys format with
        | inl _ => []
        | inr raw => trace (mapSignatures times (signatures raw) keyring)
        end
      | _ => []
      end
    end
  end.
Proof.
  unfold decrypt. async_unfold. simpl. f_equal.
  destruct (getPrivateKeyByIds keyring _) as [e|key]; [done|].
  async_unfold. simpl. f_equal.
  destruct (unlockKey key) as [e|privateKey]; [done|].
  async_unfold. simpl. f_equal.
  destruct (settled (decrypt_signingKeys _ _ _ _)) as [signingKeys| |];
    [|done..].
  async_unfold. simpl. f_equal.
  destruct (pgpDecrypt _ _ _ _) as [e|raw]; [done|].
  async_unfold.
  destruct (settled (mapSignatures _ _ _)); async_unfold;
    by rewrite app_nil_r.
Qed.

Lemma decrypt_settled times message keyring senderAddress selfSigned
    encryptionKeyIds unlockKey format :
  settled (decrypt toArray Uint8Array2str times message keyring senderAddress
             selfSigned encryptionKeyIds unlockKey format) =
  match getPrivateKeyByIds keyring (ByKeyIds encryptionKeyIds) with
  | inl e => Rejected e
  | inr key =>
    match unlockKey key with
    | inl e => Rejected e
    | inr privateKey =>
      match settled (decrypt_signingKeys keyring (toArray senderAddress)
                       selfSigned privateKey) with
      | Fulfilled signingKeys =>
        match pgpDecrypt message privateKey signingKeys format with
        | inl e => Rejected e
        | inr raw =>
          match settled (mapSignatures times (signatures raw) keyring) with
          | Fulfilled records =>
              Fulfilled
                {| data := if bool_decide (format = Some "binary")
                           then Text (Uint8Array2str (data raw))
                           else data raw;
                   signatures := records |}
          | Rejected e => Rejected e
          | Pending => Pending
          end
        end
      | Rejected e => Rejected e
      | Pending => Pending
      end
    end
  end.
Proof.
  unfold decrypt. async_unfold.
  destruct (getPrivateKeyByIds keyring _) as [e|key]; [done|].
  async_unfold.
  destruct (unlockKey key) as [e|privateKey]; [done|].
  async_unfold.
  destruct (settled (decrypt_signingKeys _ _ _ _)) as [signingKeys| |];
    [|done..].
  async_unfold.
  destruct (pgpDecrypt _ _ _ _) as [e|raw]; [done|].
  async_unfold.
  by destruct (settled (mapSignatures _ _ _)).
Qed.

Lemma decrypt_signingKeys_trace keyring emails selfSigned privateKey :
  Forall (λ ev, ev = call_getKeyByAddress emails ∧ emails ≠ [])
         (trace (decrypt_signingKeys keyring emails selfSigned privateKey)).
Proof.
  destruct (decide (emails = [])) as [->|Hne].
  - destruct selfSigned; by constructor.
  - rewrite decrypt_signingKeys_lookup by done. by repeat constructor.
Qed.

Lemma not_mapper_event times keyring raws ev :
  ev ∈ trace (mapSignatures times raws keyring) → mapper_event ev.
Proof.
  intros Hin. by eapply Forall_forall in Hin; [|apply mapSignatures_trace].
Qed.

(** The engine's [decrypt] is reached only with the unlocked key and the
    [signingKeys] computed before it. *)
Lemma decrypt_engine_call_inv times message keyring senderAddress selfSigned
    encryptionKeyIds unlockKey format m privateKey signingKeys fmt :
  call_pgpDecrypt m privateKey signingKeys fmt ∈
    trace (decrypt toArray Uint8Array2str times message keyring senderAddress
             selfSigned encryptionKeyIds unlockKey format) →
  ∃ key,
    getPrivateKeyByIds keyring (ByKeyIds encryptionKeyIds) = inr key ∧
    unlockKey key = inr privateKey ∧
    fulfils (decrypt_signingKeys keyring (toArray senderAddress) selfSigned
               privateKey) signingKeys ∧
    m = message ∧ fmt = format.
Proof.
  rewrite decrypt_trace. intros Hin.
  apply elem_of_cons in Hin as [?|Hin]; [done|].
  destruct (getPrivateKeyByIds keyring _) as [e|key];
    [by apply elem_of_nil in Hin|].
  apply elem_of_cons in Hin as [?|Hin]; [done|].
  destruct (unlockKey key) as [e|pk] eqn:Hpk; [by apply elem_of_nil in Hin|].
  simpl in Hin. apply elem_of_app in Hin as [Hin|Hin].
  { eapply Forall_forall in Hin; [|apply decrypt_signingKeys_trace].
    by destruct Hin. }
  destruct (settled (decrypt_signingKeys _ _ _ _)) as [sk| |] eqn:Hsk;
    [|by apply elem_of_nil in Hin..].
  apply elem_of_cons in Hin as [Heq|Hin].
  - injection Heq as -> -> -> ->. by exists key.
  - destruct (pgpDecrypt _ _ _ _); [by apply elem_of_nil in Hin|].
    by apply not_mapper_event in Hin.
Qed.

Lemma decrypt_engine_called times message keyring senderAddress selfSigned
    encryptionKeyIds unlockKey format key privateKey signingKeys :
  getPrivateKeyByIds keyring (ByKeyIds encryptionKeyIds) = inr key →
  unlockKey key = inr privateKey →
  fulfils (decrypt_signingKeys keyring (toArray senderAddress) selfSigned
             privateKey) signingKeys →
  call_pgpDecrypt message privateKey signingKeys format ∈
    trace (decrypt toArray Uint8Array2str times message keyring senderAddress
             selfSigned encryptionKeyIds unlockKey format).
Proof.
  intros Hkey Hpk Hsk. rewrite decrypt_trace, Hkey, Hpk. simpl.
  unfold fulfils in Hsk. rewrite Hsk.
  do 2 apply list_elem_of_further. apply elem_of_app. right.
  apply list_elem_of_here.
Qed.

Lemma decrypt_fulfilled times message keyring senderAddress selfSigned
    encryptionKeyIds unlockKey format key privateKey signingKeys raw records :
  getPrivateKeyByIds keyring (ByKeyIds encryptionKeyIds) = inr key →
  unlockKey key = inr privateKey →
  fulfils (decrypt_signingKeys keyring (toArray senderAddress) selfSigned
             privateKey) signingKeys →
  pgpDecrypt message privateKey signingKeys format = inr raw →
  Forall2 (mapped keyring) (signatures raw) records →
  fulfils (decrypt toArray Uint8Array2str times message keyring senderAddress
             selfSigned encryptionKeyIds unlockKey format)
    {| data := if bool_decide (format = Some "binary")
               then Text (Uint8Array2str (data raw)) else data raw;
       signatures := records |}.
Proof.
  intros Hkey Hpk Hsk Hraw Hrec. unfold fulfils in *. unfold decrypt.
  async_unfold. rewrite Hkey. async_unfold. rewrite Hpk. async_unfold.
  rewrite Hsk. async_unfold. rewrite Hraw. async_unfold.
  by rewrite (mapSignatures_fulfilled times _ _ _ Hrec).
Qed.

Lemma encrypt_message_trace data dataURL filename :
  Forall (λ ev, ¬ crypto_call ev)
    (trace (encrypt_message dataURL2str str2Uint8Array data dataURL filename)).
Proof.
  unfold encrypt_message.
  repeat (case_match; async_unfold; simpl); repeat constructor; auto.
Qed.

Lemma encrypt_signingKey_trace keyring unlockKey signingKeyFpr :
  Forall (λ ev, ¬ crypto_call ev)
    (trace (encrypt_signingKey keyring unlockKey signingKeyFpr)).
Proof.
  unfold encrypt_signingKey.
  repeat (case_match; async_unfold; simpl); repeat constructor; auto.
Qed.

Lemma encrypt_signingKey_unavailable keyring unlockKey signingKeyFpr :
  truthy signingKeyFpr = true →
  key_unavailable keyring unlockKey
    (ByFingerprint (default "" signingKeyFpr)) →
  rejects (encrypt_signingKey keyring unlockKey signingKeyFpr).
Proof.
  unfold key_unavailable, rejects, encrypt_signingKey. intros -> Hun.
  async_unfold.
  destruct (getPrivateKeyByIds keyring _) as [e|key]; [by eauto|].
  destruct Hun as [e Hun]. async_unfold. rewrite Hun. eauto.
Qed.

Lemma encrypt_trace data dataURL keyring unlockKey encryptionKeyFprs
    signingKeyFpr filename armor :
  trace (encrypt Uint8Array2str dataURL2str str2Uint8Array data dataURL
           keyring unlockKey encryptionKeyFprs signingKeyFpr filename armor) =
  let message :=
    encrypt_message dataURL2str str2Uint8Array data dataURL filename in
  let signingKey := encrypt_signingKey keyring unlockKey signingKeyFpr in
  trace message ++
  match settled message with
  | Fulfilled message =>
    trace signingKey ++
    match settled signingKey with
    | Fulfilled signingKey =>
      call_getKeysByFprs encryptionKeyFprs ::
      match getKeysByFprs keyring encryptionKeyFprs with
      | inl _ => []
      | inr keys =>
          [call_pgpEncrypt message keys signingKey
             (if armor then "armored" else "binary")]
      end
    | _ => []
    end
  | _ => []
  end.
Proof.
  unfold encrypt. async_unfold. simpl. f_equal.
  destruct (settled (encrypt_message _ _ _ _ _)); [|done..].
  async_unfold. f_equal.
  destruct (settled (encrypt_signingKey _ _ _)); [|done..].
  async_unfold. simpl. f_equal.
  destruct (getKeysByFprs keyring _); [done|].
  async_unfold. simpl. by destruct (pgpEncrypt _ _ _ _).
Qed.

Lemma encrypt_settled data dataURL keyring unlockKey encryptionKeyFprs
    signingKeyFpr filename armor :
  settled (encrypt Uint8Array2str dataURL2str str2Uint8Array data dataURL
             keyring unlockKey encryptionKeyFprs signingKeyFpr filename
             armor) =
  match settled (encrypt_message dataURL2str str2Uint8Array data dataURL
                   filename) with
  | Fulfilled message =>
    match settled (encrypt_signingKey keyring unlockKey signingKeyFpr) with
    | Fulfilled signingKey =>
      match getKeysByFprs keyring encryptionKeyFprs with
      | inl e => Rejected e
      | inr keys =>
        match pgpEncrypt message keys signingKey
                (if armor then "armored" else "binary") with
        | inl e => Rejected e
        | inr result =>
            Fulfilled (if armor then result
                       else Text (Uint8Array2str result))
        end
      end
    | Rejected e => Rejected e
    | Pending => Pending
    end
  | Rejected e => Rejected e
  | Pending => Pending
  end.
Proof.
  unfold encrypt. async_unfold.
  destruct (settled (encrypt_message _ _ _ _ _)); [|done..].
  async_unfold.
  destruct (settled (encrypt_signingKey _ _ _)); [|done..].
  async_unfold.
  destruct (getKeysByFprs keyring _); [done|].
  async_unfold. simpl. by destruct (pgpEncrypt _ _ _ _).
Qed.

(** The steps of [encrypt] before the engine call never stay pending. *)
Lemma encrypt_message_settles data dataURL filename :
  settled (encrypt_message dataURL2str str2Uint8Array data dataURL filename)
    ≠ Pending.
Proof.
  unfold encrypt_message.
  repeat (case_match; async_unfold; simpl); done.
Qed.

Lemma encrypt_signingKey_settles keyring unlockKey signingKeyFpr :
  settled (encrypt_signingKey keyring unlockKey signingKeyFpr) ≠ Pending.
Proof.
  unfold encrypt_signingKey.
  repeat (case_match; async_unfold; simpl); done.
Qed.

Lemma push_signing_key_run keyring acc keyId :
  push_signing_key keyring acc keyId =
  ([call_getKeysForId (hex_id keyId) true],
   Fulfilled (acc ++ first_key keyring keyId)).
Proof.
  unfold push_signing_key, first_key.
  apply async_eq; async_unfold; simpl;
    destruct (keystore_getKeysForId keyring _ true);
    async_unfold; by rewrite ?app_nil_r.
Qed.

Lemma for_of_push_signing_key keyring ids acc :
  for_of (push_signing_key keyring) ids acc =
  ((λ keyId, call_getKeysForId (hex_id keyId) true) <$> ids,
   Fulfilled (acc ++ (ids ≫= first_key keyring))).
Proof.
  revert acc. induction ids as [|keyId ids IH]; intros acc.
  - simpl. by rewrite app_nil_r.
  - cbn [for_of]. rewrite push_signing_key_run.
    apply async_eq; async_unfold; cbn [settled trace fst snd];
      rewrite IH; simpl; by rewrite <- ?app_assoc.
Qed.

Lemma verify_signingKeys_run keyring ids :
  verify_signingKeys keyring ids =
  ((λ keyId, call_getKeysForId (hex_id keyId) true) <$> ids,
   Fulfilled (ids ≫= first_key keyring)).
Proof. apply for_of_push_signing_key. Qed.

Lemma verify_detached_trace message plaintext detachedSignature :
  Forall (λ ev, match ev with
                | call_readSignature _ | call_createMessage _ _ => True
                | _ => False
                end)
    (trace (verify_detached message plaintext detachedSignature)).
Proof.
  unfold verify_detached.
  repeat (case_match; async_unfold; simpl); by repeat constructor.
Qed.

Lemma verify_trace times message plaintext detachedSignature keyring
    signingKeyIds :
  trace (verify times message plaintext detachedSignature keyring
           signingKeyIds) =
  ((λ keyId, call_getKeysForId (hex_id keyId) true) <$> signingKeyIds) ++
  let inputs := verify_detached message plaintext detachedSignature in
  trace inputs ++
  match settled inputs with
  | Fulfilled (signature, message) =>
    let signingKeys := signingKeyIds ≫= first_key keyring in
    call_pgpVerify message signingKeys signature ::
    match pgpVerify message signingKeys signature with
    | inl _ => []
    | inr raw => trace (mapSignatures times (signatures raw) keyring)
    end
  | _ => []
  end.
Proof.
  unfold verify. async_unfold. rewrite verify_signingKeys_run.
  cbn [settled trace fst snd]. f_equal. async_unfold. simpl. f_equal.
  destruct (settled (verify_detached _ _ _)) as [[signature m]| |];
    [|done..].
  async_unfold. simpl. f_equal.
  destruct (pgpVerify _ _ _) as [e|raw]; [done|].
  async_unfold.
  destruct (settled (mapSignatures _ _ _)); async_unfold;
    by rewrite app_nil_r.
Qed.

Lemma verify_settled times message plaintext detachedSignature keyring
    signingKeyIds :
  settled (verify times message plaintext detachedSignature keyring
             signingKeyIds) =
  match settled (verify_detached message plaintext detachedSignature) with
  | Fulfilled (signature, message) =>
    match pgpVerify message (signingKeyIds ≫= first_key keyring)
            signature with
    | inl e => Rejected e
    | inr raw =>
      match settled (mapSignatures times (signatures raw) keyring) with
      | Fulfilled records =>
          Fulfilled {| data := data raw; signatures := records |}
      | Rejected e => Rejected e
      | Pending => Pending
      end
    end
  | Rejected e => Rejected e
  | Pending => Pending
  end.
Proof.
  unfold verify. async_unfold. rewrite verify_signingKeys_run.
  cbn [settled trace fst snd]. async_unfold.
  destruct (settled (verify_detached _ _ _)) as [[signature m]| |];
    [|done..].
  async_unfold.
  destruct (pgpVerify _ _ _) as [e|raw]; [done|].
  async_unfold.
  by destruct (settled (mapSignatures _ _ _)).
Qed.

(** The engine's [verify] is only ever given the first keys found for the
    identifiers, in the order of the identifiers. *)
Lemma verify_engine_call_inv times message plaintext detachedSignature
    keyring signingKeyIds m signingKeys sig :
  call_pgpVerify m signingKeys sig ∈
    trace (verify times message plaintext detachedSignature keyring
             signingKeyIds) →
  signingKeys = signingKeyIds ≫= first_key keyring.
Proof.
  rewrite verify_trace. intros Hin.
  apply elem_of_app in Hin as [Hin|Hin].
  { apply list_elem_of_fmap in Hin as (keyId & ? & _). done. }
  simpl in Hin. apply elem_of_app in Hin as [Hin|Hin].
  { by eapply Forall_forall in Hin; [|apply verify_detached_trace]. }
  destruct (settled (verify_detached _ _ _)) as [[signature m']| |];
    [|by apply elem_of_nil in Hin..].
  apply elem_of_cons in Hin as [Heq|Hin]; [by injection Heq|].
  destruct (pgpVerify _ _ _); [by apply elem_of_nil in Hin|].
  by apply not_mapper_event in Hin.
Qed.
End Operations.

(** ** Properties of the signature mapper *)

Section Mapper_properties.
Context `{OpenPGP}.
Implicit Types (keyring : Keyring) (raw : VerificationResult)
               (r : SigRecord).

Lemma verified_valid_run raw :
  verified_valid raw =
  ([], Fulfilled match verified raw with
                 | inr _ => Valid
                 | inl e => if String.prefix no_signing_key (message e)
                            then Unknown else Invalid
                 end).
Proof. unfold verified_valid. by destruct (verified raw) as [e|[]]. Qed.

(** The record the callback builds, field by field. *)
Lemma mapped_inv keyring raw r t :
  mapped keyring raw r →
  fulfils (verified_valid raw) t →
  keyId r = toHex (keyID raw) ∧
  match t with
  | Unknown => valid r = Unknown ∧ fingerprint r = None
  | _ =>
    match getFprForKeyId keyring (toHex (keyID raw)) with
    | inr fpr => valid r = t ∧ fingerprint r = Some fpr
    | inl _ => valid r = Invalid ∧ fingerprint r = None
    end
  end.
Proof.
  unfold mapped, fulfils, mapSignature.
  destruct (verified_valid_total raw) as [t' ->].
  destruct (signature_created_total raw) as [c ->].
  intros Hr [= ->]. revert Hr.
  destruct t; simpl; try (by intros [= <-]);
    destruct (getFprForKeyId keyring _); simpl; by intros [= <-].
Qed.

(** C3. For every raw signature outcome the mapper classifies [valid] from
    the verification handle as a tri-state: [Unknown] exactly when
    evaluating the handle fails with a no-matching-key report, [Invalid]
    when it fails with any other error, and [Valid] when it succeeds.  In
    the record that is returned, [Unknown] and [Invalid] stay as
    classified, and [Valid] stays unless the fingerprint lookup fails. *)
Theorem valid_tri_state raw :
  (fulfils (verified_valid raw) Unknown ↔
     ∃ e, verified raw = inl e ∧
          String.prefix no_signing_key (message e) = true) ∧
  (∀ e, verified raw = inl e →
        String.prefix no_signing_key (message e) = false →
        fulfils (verified_valid raw) Invalid) ∧
  (verified raw = inr () → fulfils (verified_valid raw) Valid) ∧
  (∀ keyring r, mapped keyring raw r →
     (valid r = Unknown ↔ fulfils (verified_valid raw) Unknown) ∧
     (fulfils (verified_valid raw) Invalid → valid r = Invalid) ∧
     (fulfils (verified_valid raw) Valid →
        valid r = match getFprForKeyId keyring (toHex (keyID raw)) with
                  | inr _ => Valid
                  | inl _ => Invalid
                  end)).
Proof.
  split; [|split; [|split]].
  - unfold fulfils. rewrite verified_valid_run. cbn [settled snd]. split.
    + destruct (verified raw) as [e|[]]; [|done].
      destruct (String.prefix _ _) eqn:Hp; [eauto|done].
    + by intros (e & -> & ->).
  - intros e He Hp. unfold fulfils.
    by rewrite verified_valid_run, He, Hp.
  - intros He. unfold fulfils. by rewrite verified_valid_run, He.
  - intros keyring r Hr. split; [split|split].
    + intros Hv. destruct (verified_valid_total raw) as [t Ht].
      assert (fulfils (verified_valid raw) t) as Hful
        by (unfold fulfils; by rewrite Ht).
      destruct (mapped_inv _ _ _ _ Hr Hful) as [_ Hm].
      destruct t; [| |done];
        destruct (getFprForKeyId keyring _); destruct Hm; congruence.
    + intros Hful. by destruct (mapped_inv _ _ _ _ Hr Hful) as [_ [? ?]].
    + intros Hful. destruct (mapped_inv _ _ _ _ Hr Hful) as [_ Hm].
      by destruct (getFprForKeyId keyring _); destruct Hm.
    + intros Hful. destruct (mapped_inv _ _ _ _ Hr Hful) as [_ Hm].
      by destruct (getFprForKeyId keyring _); destruct Hm.
Qed.

(** C6. For every list of raw signature outcomes the mapper returns one
    record per signature, in the order of the input, whatever the order in
    which the per-signature evaluations settle; each record depends on its
    own signature only, and no signature can make the mapping fail. *)
Theorem mapSignatures_keeps_order keyring (raws : list VerificationResult) :
  ∃ records,
    Forall2 (mapped keyring) raws records ∧
    (∀ times, fulfils (mapSignatures times raws keyring) records) ∧
    (∀ order,
       (∀ i, i < length raws → i ∈ order) →
       fulfils (await_all (mapSignature keyring <$> raws) order
                  (replicate (length raws) None)) records).
Proof.
  destruct (mapSignatures_mapped keyring raws) as [records Hrec].
  exists records. split; [done|]. split.
  - intros times. by apply mapSignatures_fulfilled.
  - intros order Hcov.
    pose proof (Forall2_length _ _ _ Hrec) as Hlen.
    apply await_all_fulfilled.
    + by apply Forall2_fmap_l.
    + rewrite length_replicate. done.
    + by intros i v [? _]%lookup_replicate.
    + intros i Hi. left. apply Hcov. by rewrite Hlen.
Qed.

End Mapper_properties.

(** ** Properties of the operations *)

Section Properties.
Context `{OpenPGP}.
Variable toArray : AddressArg → list string.
Variable Uint8Array2str : Data → string.
Variable dataURL2str : string → string.
Variable str2Uint8Array : string → list Byte.byte.
Implicit Types (keyring : Keyring) (unlockKey : Key → result Key).

Local Abbreviation decrypt := (decrypt toArray Uint8Array2str).
Local Abbreviation encrypt := (encrypt Uint8Array2str dataURL2str str2Uint8Array).

(** C1. In [decrypt], whenever the normalized [senderAddress] array is not
    empty or [selfSigned] is set, the verification keys handed to the
    engine are a non-empty array: the keys found for the addresses,
    flattened in address order, and, when these are none, exactly the
    one-element array holding the unlocked decryption key. *)
Theorem decrypt_verificationKeys_nonempty times message keyring
    senderAddress selfSigned encryptionKeyIds unlockKey format
    m privateKey signingKeys fmt :
  toArray senderAddress ≠ [] ∨ selfSigned = true →
  call_pgpDecrypt m privateKey signingKeys fmt ∈
    trace (decrypt times message keyring senderAddress selfSigned
             encryptionKeyIds unlockKey format) →
  ∃ keys,
    signingKeys = Some keys ∧ keys ≠ [] ∧
    (∃ key, getPrivateKeyByIds keyring (ByKeyIds encryptionKeyIds) = inr key ∧
            unlockKey key = inr privateKey) ∧
    ∀ found,
      (toArray senderAddress ≠ [] →
       getKeyByAddress keyring (toArray senderAddress) = inr found) →
      keys = if bool_decide (flattened found (toArray senderAddress) = [])
             then [privateKey]
             else flattened found (toArray senderAddress).
Proof.
  intros Hcond Hin.
  apply decrypt_engine_call_inv in Hin as (key & Hkey & Hpk & Hsk & _ & _).
  unfold fulfils in Hsk.
  destruct (decide (toArray senderAddress = [])) as [Hnil|Hne].
  - destruct Hcond as [?| ->]; [done|].
    rewrite Hnil, decrypt_signingKeys_self in Hsk. injection Hsk as <-.
    exists [privateKey]. repeat split; [done|by eauto|].
    intros found _. by rewrite Hnil.
  - rewrite decrypt_signingKeys_lookup in Hsk by done.
    cbn [settled snd] in Hsk.
    destruct (getKeyByAddress keyring _) as [e|found] eqn:Hfound; [done|].
    injection Hsk as <-. eexists. repeat split; [|by eauto|].
    + by case_bool_decide.
    + intros found' Hfound'. specialize (Hfound' Hne).
      by injection Hfound' as <-.
Qed.

(** C4 (as amended). For every [decrypt] call where the normalized
    [senderAddress] array is empty and [selfSigned] is not set, no
    signing-key lookup is performed and no verification keys are handed to
    the engine; the signatures returned are the mapped images of whatever
    signature outcomes the engine reports, and so are empty exactly when
    the engine reports none. *)
Theorem decrypt_without_verification times message keyring senderAddress
    encryptionKeyIds unlockKey format :
  toArray senderAddress = [] →
  let run := decrypt times message keyring senderAddress false
               encryptionKeyIds unlockKey format in
  (∀ emails, call_getKeyByAddress emails ∉ trace run) ∧
  (∀ m privateKey signingKeys fmt,
     call_pgpDecrypt m privateKey signingKeys fmt ∈ trace run →
     signingKeys = None) ∧
  (∀ res, fulfils run res →
     ∃ privateKey raw,
       pgpDecrypt message privateKey None format = inr raw ∧
       Forall2 (mapped keyring) (signatures raw) (signatures res) ∧
       (signatures res = [] ↔ signatures raw = [])).
Proof.
  intros Hnil run. subst run. split; [|split].
  - intros emails. rewrite decrypt_trace, Hnil.
    intros Hin.
    apply elem_of_cons in Hin as [?|Hin]; [done|].
    destruct (getPrivateKeyByIds keyring _); [by apply elem_of_nil in Hin|].
    apply elem_of_cons in Hin as [?|Hin]; [done|].
    destruct (unlockKey _); [by apply elem_of_nil in Hin|].
    rewrite decrypt_signingKeys_none in Hin. simpl in Hin.
    apply elem_of_cons in Hin as [?|Hin]; [done|].
    destruct (pgpDecrypt _ _ _ _); [by apply elem_of_nil in Hin|].
    by apply not_mapper_event in Hin.
  - intros m privateKey signingKeys fmt Hin.
    apply decrypt_engine_call_inv in Hin as (key & _ & _ & Hsk & _ & _).
    unfold fulfils in Hsk. rewrite Hnil, decrypt_signingKeys_none in Hsk.
    by injection Hsk.
  - intros res Hres.
    apply decrypt_fulfilled_inv in Hres
      as (key & privateKey & signingKeys & raw & _ & _ & Hsk & Hraw & Hmap & _).
    unfold fulfils in Hsk. rewrite Hnil, decrypt_signingKeys_none in Hsk.
    injection Hsk as <-. exists privateKey, raw. repeat split; [done..| |].
    + intros Hres. rewrite Hres in Hmap. by apply Forall2_nil_inv_r in Hmap.
    + intros Hr. rewrite Hr in Hmap. by apply Forall2_nil_inv_l in Hmap.
Qed.


Lemma decrypt_aborts times message keyring senderAddress selfSigned
    encryptionKeyIds unlockKey format :
  key_unavailable keyring unlockKey (ByKeyIds encryptionKeyIds) ∨
  (toArray senderAddress ≠ [] ∧
   ∃ e, getKeyByAddress keyring (toArray senderAddress) = inl e) →
  aborts_before_engine
    (decrypt times message keyring senderAddress selfSigned encryptionKeyIds
       unlockKey format).
Proof.
  unfold key_unavailable, aborts_before_engine, rejects.
  intros Hfail. rewrite decrypt_trace, decrypt_settled.
  destruct (getPrivateKeyByIds keyring _) as [e|key].
  { split; [by eauto|]. repeat constructor; auto. }
  destruct (unlockKey key) as [e|privateKey].
  { split; [by eauto|]. repeat constructor; auto. }
  destruct Hfail as [[e ?]|[Hne [e He]]]; [done|].
  cbn zeta. rewrite decrypt_signingKeys_lookup by done. rewrite He.
  cbn [settled trace fst snd]. split; [by eauto|].
  repeat constructor; auto.
Qed.

Lemma encrypt_aborts data dataURL keyring unlockKey encryptionKeyFprs
    signingKeyFpr filename armor :
  (truthy signingKeyFpr = true ∧
   key_unavailable keyring unlockKey
     (ByFingerprint (default "" signingKeyFpr))) ∨
  (∃ e, getKeysByFprs keyring encryptionKeyFprs = inl e) →
  aborts_before_engine
    (encrypt data dataURL keyring unlockKey encryptionKeyFprs signingKeyFpr
       filename armor).
Proof.
  unfold aborts_before_engine, rejects. intros Hfail.
  rewrite encrypt_settled, encrypt_trace. cbn zeta.
  pose proof (encrypt_message_trace dataURL2str str2Uint8Array data dataURL
                filename) as Hm.
  pose proof (encrypt_message_settles dataURL2str str2Uint8Array data dataURL
                filename) as Hm'.
  pose proof (encrypt_signingKey_trace keyring unlockKey signingKeyFpr) as Hk.
  pose proof (encrypt_signingKey_settles keyring unlockKey signingKeyFpr)
    as Hk'.
  destruct (settled (encrypt_message _ _ _ _ _)) as [message|e|];
    [|split; [by eauto|by rewrite app_nil_r]|done].
  destruct (settled (encrypt_signingKey _ _ _)) as [signingKey|e|] eqn:Hsk;
    [|split; [by eauto|rewrite app_nil_r; by apply Forall_app]|done].
  destruct Hfail as [[Ht Hun]|[e He]].
  - destruct (encrypt_signingKey_unavailable _ _ _ Ht Hun) as [e He].
    congruence.
  - rewrite He. split; [by eauto|].
    apply Forall_app. split; [done|]. apply Forall_app. split; [done|].
    repeat constructor; auto.
Qed.

Lemma sign_aborts data keyring unlockKey signingKeyFpr :
  key_unavailable keyring unlockKey (ByFingerprint signingKeyFpr) →
  aborts_before_engine (sign data keyring unlockKey signingKeyFpr).
Proof.
  unfold key_unavailable, aborts_before_engine, rejects, sign.
  intros Hfail. async_unfold.
  destruct (createCleartextMessage data) as [e|message].
  { split; [by eauto|]. repeat constructor; auto. }
  async_unfold.
  destruct (getPrivateKeyByIds keyring _) as [e|key].
  { split; [by eauto|]. repeat constructor; auto. }
  destruct Hfail as [e He]. async_unfold. rewrite He.
  split; [by eauto|]. repeat constructor; auto.
Qed.

(** C7. For [decrypt], [encrypt] and [sign], if key resolution or the
    unlock callback fails, the whole operation is rejected before the
    engine's [decrypt], [encrypt] or [sign] is called, so no plaintext,
    ciphertext or signature is produced. *)
Theorem resolution_failure_aborts keyring unlockKey :
  (∀ times message senderAddress selfSigned encryptionKeyIds format,
     key_unavailable keyring unlockKey (ByKeyIds encryptionKeyIds) ∨
     (toArray senderAddress ≠ [] ∧
      ∃ e, getKeyByAddress keyring (toArray senderAddress) = inl e) →
     aborts_before_engine
       (decrypt times message keyring senderAddress selfSigned
          encryptionKeyIds unlockKey format)) ∧
  (∀ data dataURL encryptionKeyFprs signingKeyFpr filename armor,
     (truthy signingKeyFpr = true ∧
      key_unavailable keyring unlockKey
        (ByFingerprint (default "" signingKeyFpr))) ∨
     (∃ e, getKeysByFprs keyring encryptionKeyFprs = inl e) →
     aborts_before_engine
       (encrypt data dataURL keyring unlockKey encryptionKeyFprs
          signingKeyFpr filename armor)) ∧
  (∀ data signingKeyFpr,
     key_unavailable keyring unlockKey (ByFingerprint signingKeyFpr) →
     aborts_before_engine (sign data keyring unlockKey signingKeyFpr)).
Proof.
  split; [|split].
  - intros. by apply decrypt_aborts.
  - intros. by apply encrypt_aborts.
  - intros. by apply sign_aborts.
Qed.


(** C9 (as amended). [encrypt] makes no emptiness check of its own: once
    the message is built and the signing key (if any) is unlocked, it is
    rejected before the engine only when [keyring.getKeysByFprs] throws;
    whenever that call returns a list of recipient keys, empty or not, the
    engine's [encrypt] is invoked with exactly that list and [encrypt]
    settles as the engine does. *)
Theorem encrypt_recipients data dataURL keyring unlockKey encryptionKeyFprs
    signingKeyFpr filename armor message signingKey :
  fulfils (encrypt_message dataURL2str str2Uint8Array data dataURL filename)
    message →
  fulfils (encrypt_signingKey keyring unlockKey signingKeyFpr) signingKey →
  let run := encrypt data dataURL keyring unlockKey encryptionKeyFprs
               signingKeyFpr filename armor in
  let format := if armor then "armored" else "binary" in
  match getKeysByFprs keyring encryptionKeyFprs with
  | inl e => settled run = Rejected e ∧ aborts_before_engine run
  | inr keys =>
      call_pgpEncrypt message keys signingKey format ∈ trace run ∧
      (∀ m keys' key fmt,
         call_pgpEncrypt m keys' key fmt ∈ trace run → keys' = keys) ∧
      settled run =
      match pgpEncrypt message keys signingKey format with
      | inl e => Rejected e
      | inr result =>
          Fulfilled (if armor then result else Text (Uint8Array2str result))
      end
  end.
Proof.
  unfold fulfils. intros Hm Hk. cbn zeta.
  pose proof (encrypt_message_trace dataURL2str str2Uint8Array data dataURL
                filename) as Htm.
  pose proof (encrypt_signingKey_trace keyring unlockKey signingKeyFpr)
    as Htk.
  destruct (getKeysByFprs keyring encryptionKeyFprs) as [e|keys] eqn:Hkeys.
  - split; [|apply encrypt_aborts; by eauto].
    by rewrite encrypt_settled, Hm, Hk, Hkeys.
  - rewrite encrypt_settled, encrypt_trace, Hm, Hk, Hkeys. cbn zeta.
    rewrite Hm, Hk. split; [|split; [|done]].
    + apply elem_of_app. right. apply elem_of_app. right.
      apply list_elem_of_further, list_elem_of_here.
    + intros m keys' key fmt Hin.
      apply elem_of_app in Hin as [Hin|Hin].
      { eapply Forall_forall in Hin; [|exact Htm]. by destruct Hin. }
      apply elem_of_app in Hin as [Hin|Hin].
      { eapply Forall_forall in Hin; [|exact Htk]. by destruct Hin. }
      apply elem_of_cons in Hin as [?|Hin]; [done|].
      apply list_elem_of_singleton in Hin. by injection Hin.
Qed.

Lemma concat_fmap_bind {A B} (f : A → list B) (l : list A) :
  concat (f <$> l) = l ≫= f.
Proof.
  induction l as [|x l IH]; [done|].
  rewrite fmap_cons, bind_cons. cbn [concat]. by rewrite IH.
Qed.

Lemma length_first_keys keyring ids :
  length (ids ≫= first_key keyring) ≤ length ids.
Proof.
  induction ids as [|keyId ids IH]; [done|].
  rewrite bind_cons, length_app. unfold first_key at 1.
  destruct (keystore_getKeysForId keyring _ true); cbn [length]; lia.
Qed.

(** C10. In [verify], every identifier of [signingKeyIds] for which the
    keystore finds one or more keys adds only the first of them to the
    verification keys; the further keys found for it are ignored, so at
    most one verification key is used per identifier, in the order of the
    identifiers. *)
Theorem verify_first_key_only times message plaintext detachedSignature
    keyring signingKeyIds :
  ∃ added : list (list (option Key)),
    Forall2 (λ keyId keys,
               match keystore_getKeysForId keyring (hex_id keyId) true with
               | Some (first :: further) => keys = [Some first]
               | Some [] => keys = [None]
               | None => keys = []
               end) signingKeyIds added ∧
    fulfils (verify_signingKeys keyring signingKeyIds) (concat added) ∧
    length (concat added) ≤ length signingKeyIds ∧
    (∀ m signingKeys sig,
       call_pgpVerify m signingKeys sig ∈
         trace (verify times message plaintext detachedSignature keyring
                  signingKeyIds) →
       signingKeys = concat added) ∧
    ∀ sig m,
      fulfils (verify_detached message plaintext detachedSignature) (sig, m) →
      call_pgpVerify m (concat added) sig ∈
        trace (verify times message plaintext detachedSignature keyring
                 signingKeyIds).
Proof.
  exists (first_key keyring <$> signingKeyIds).
  rewrite concat_fmap_bind. split; [|split; [|split; [|split]]].
  - apply Forall2_fmap_r, Forall_Forall2_diag, Forall_forall.
    intros keyId _. unfold first_key.
    simpl.
    by destruct (keystore_getKeysForId keyring _ true) as [[|first further]|].
  - unfold fulfils. by rewrite verify_signingKeys_run.
  - apply length_first_keys.
  - intros m signingKeys sig. apply verify_engine_call_inv.
  - intros sig m Hin. unfold fulfils in Hin. rewrite verify_trace. cbn zeta.
    rewrite Hin. apply elem_of_app. right. apply elem_of_app. right.
    apply list_elem_of_here.
Qed.

Lemma verify_fulfilled_inv times message plaintext detachedSignature keyring
    signingKeyIds res :
  fulfils (verify times message plaintext detachedSignature keyring
             signingKeyIds) res →
  ∃ raw, Forall2 (mapped keyring) (signatures raw) (signatures res) ∧
         data res = data raw.
Proof.
  unfold fulfils. rewrite verify_settled.
  destruct (settled (verify_detached _ _ _)) as [[sig m]| |]; [|done..].
  destruct (pgpVerify _ _ _) as [e|raw]; [done|].
  destruct (settled (mapSignatures _ _ _)) as [records| |] eqn:Hrec;
    [|done..].
  intros [= <-]. exists raw. split; [|done]. by eapply mapSignatures_inv.
Qed.

Lemma fingerprint_of_mapped keyring raw r :
  mapped keyring raw r → fingerprint_only_if_known r.
Proof.
  intros Hr Hv. destruct (verified_valid_total raw) as [t Ht].
  assert (fulfils (verified_valid raw) t) as Hful
    by (unfold fulfils; by rewrite Ht).
  destruct (mapped_inv _ _ _ _ Hr Hful) as [_ Hm].
  destruct t; [| |by destruct Hm];
    destruct (getFprForKeyId keyring _); destruct Hm; congruence.
Qed.

Lemma fingerprint_of_all_mapped keyring raws records :
  Forall2 (mapped keyring) raws records →
  Forall fingerprint_only_if_known records.
Proof.
  induction 1; constructor; [by eapply fingerprint_of_mapped|done].
Qed.

(** C5. In every signature record produced by the mapper, for [decrypt] and
    for [verify], the [fingerprint] is populated only when [valid] is not
    [Unknown]: a record classified [Unknown] never carries a
    fingerprint. *)
Theorem fingerprint_only_when_known keyring :
  (∀ raw r, mapped keyring raw r → fingerprint_only_if_known r) ∧
  (∀ times message senderAddress selfSigned encryptionKeyIds unlockKey
     format res,
     fulfils (decrypt times message keyring senderAddress selfSigned
                encryptionKeyIds unlockKey format) res →
     Forall fingerprint_only_if_known (signatures res)) ∧
  (∀ times message plaintext detachedSignature signingKeyIds res,
     fulfils (verify times message plaintext detachedSignature keyring
                signingKeyIds) res →
     Forall fingerprint_only_if_known (signatures res)).
Proof.
  split; [|split].
  - apply fingerprint_of_mapped.
  - intros * Hres.
    apply decrypt_fulfilled_inv in Hres
      as (_ & _ & _ & raw & _ & _ & _ & _ & Hmap & _).
    by eapply fingerprint_of_all_mapped.
  - intros * Hres.
    apply verify_fulfilled_inv in Hres as (raw & Hmap & _).
    by eapply fingerprint_of_all_mapped.
Qed.

Lemma verify_fulfilled times message plaintext detachedSignature keyring
    signingKeyIds sig m raw records :
  fulfils (verify_detached message plaintext detachedSignature) (sig, m) →
  pgpVerify m (signingKeyIds ≫= first_key keyring) sig = inr raw →
  Forall2 (mapped keyring) (signatures raw) records →
  fulfils (verify times message plaintext detachedSignature keyring
             signingKeyIds)
    {| data := data raw; signatures := records |}.
Proof.
  unfold fulfils. intros Hin Hraw Hrec.
  rewrite verify_settled, Hin, Hraw.
  by rewrite (mapSignatures_fulfilled times _ _ _ Hrec).
Qed.

(** C2. For every signature whose classification from the verification
    handle is not [Unknown], a failing fingerprint lookup for its key ID
    forces [valid] to [Invalid], never leaving it [Valid], and the failure
    is absorbed: the mapper is still fulfilled with one record per
    signature, and [decrypt] and [verify] still return the message data
    and all the records. *)
Theorem lookup_failure_is_absorbed keyring
    (raws : list VerificationResult) i raw e :
  raws !! i = Some raw →
  ¬ fulfils (verified_valid raw) Unknown →
  getFprForKeyId keyring (toHex (keyID raw)) = inl e →
  ∃ records r,
    Forall2 (mapped keyring) raws records ∧
    records !! i = Some r ∧ valid r = Invalid ∧ fingerprint r = None ∧
    (∀ times, fulfils (mapSignatures times raws keyring) records) ∧
    (∀ times message senderAddress selfSigned encryptionKeyIds unlockKey
       format key privateKey signingKeys payload,
       getPrivateKeyByIds keyring (ByKeyIds encryptionKeyIds) = inr key →
       unlockKey key = inr privateKey →
       fulfils (decrypt_signingKeys keyring (toArray senderAddress)
                  selfSigned privateKey) signingKeys →
       pgpDecrypt message privateKey signingKeys format =
         inr {| data := payload; signatures := raws |} →
       fulfils (decrypt times message keyring senderAddress selfSigned
                  encryptionKeyIds unlockKey format)
         {| data := if bool_decide (format = Some "binary")
                    then Text (Uint8Array2str payload) else payload;
            signatures := records |}) ∧
    (∀ times message plaintext detachedSignature signingKeyIds sig m payload,
       fulfils (verify_detached message plaintext detachedSignature)
         (sig, m) →
       pgpVerify m (signingKeyIds ≫= first_key keyring) sig =
         inr {| data := payload; signatures := raws |} →
       fulfils (verify times message plaintext detachedSignature keyring
                  signingKeyIds)
         {| data := payload; signatures := records |}).
Proof.
  intros Hi Hknown Hfpr.
  destruct (mapSignatures_mapped keyring raws) as [records Hrec].
  destruct (Forall2_lookup_l _ _ _ _ _ Hrec Hi) as (r & Hr & Hmap).
  exists records, r. split; [done|]. split; [done|].
  assert (valid r = Invalid ∧ fingerprint r = None) as [-> ->].
  { destruct (verified_valid_total raw) as [t Ht].
    assert (fulfils (verified_valid raw) t) as Hful
      by (unfold fulfils; by rewrite Ht).
    destruct (mapped_inv _ _ _ _ Hmap Hful) as [_ Hm].
    rewrite Hfpr in Hm. by destruct t. }
  split; [done|]. split; [done|]. split; [|split].
  - intros times. by apply mapSignatures_fulfilled.
  - intros * Hkey Hpk Hsk Hraw.
    by apply (decrypt_fulfilled toArray Uint8Array2str times _ _ _ _ _ _ _
                key privateKey signingKeys _ _ Hkey Hpk Hsk Hraw).
  - intros * Hin Hraw.
    by apply (verify_fulfilled times _ _ _ _ _ sig m _ _ Hin Hraw).
Qed.

Lemma decrypt_lookup_inv times message keyring senderAddress selfSigned
    encryptionKeyIds unlockKey format emails :
  call_getKeyByAddress emails ∈
    trace (decrypt times message keyring senderAddress selfSigned
             encryptionKeyIds unlockKey format) →
  emails = toArray senderAddress ∧ toArray senderAddress ≠ [].
Proof.
  rewrite decrypt_trace. intros Hin.
  apply elem_of_cons in Hin as [?|Hin]; [done|].
  destruct (getPrivateKeyByIds keyring _); [by apply elem_of_nil in Hin|].
  apply elem_of_cons in Hin as [?|Hin]; [done|].
  destruct (unlockKey _); [by apply elem_of_nil in Hin|].
  cbn zeta in Hin. apply elem_of_app in Hin as [Hin|Hin].
  { eapply Forall_forall in Hin; [|apply decrypt_signingKeys_trace].
    destruct Hin as [[= ->] ?]. done. }
  destruct (settled (decrypt_signingKeys _ _ _ _));
    [|by apply elem_of_nil in Hin..].
  apply elem_of_cons in Hin as [?|Hin]; [done|].
  destruct (pgpDecrypt _ _ _ _); [by apply elem_of_nil in Hin|].
  by apply not_mapper_event in Hin.
Qed.

Lemma decrypt_lookup_called times message keyring senderAddress selfSigned
    encryptionKeyIds unlockKey format key privateKey :
  getPrivateKeyByIds keyring (ByKeyIds encryptionKeyIds) = inr key →
  unlockKey key = inr privateKey →
  toArray senderAddress ≠ [] →
  call_getKeyByAddress (toArray senderAddress) ∈
    trace (decrypt times message keyring senderAddress selfSigned
             encryptionKeyIds unlockKey format).
Proof.
  intros Hkey Hpk Hne. rewrite decrypt_trace, Hkey, Hpk. cbn zeta.
  rewrite decrypt_signingKeys_lookup by done. cbn [trace fst].
  do 2 apply list_elem_of_further. apply list_elem_of_here.
Qed.

End Properties.


(** ** Sender addresses *)

Lemma elem_of_deDup (emails : list string) email :
  email ∈ deDup emails ↔ email ∈ emails.
Proof.
  induction emails as [|x emails IH]; simpl; [done|].
  rewrite !elem_of_cons, list_elem_of_filter, IH.
  destruct (decide (email = x)) as [->|Hne]; [by split; left|].
  split; [intros [?|[_ ?]]|intros [?|?]]; auto.
Qed.

Lemma NoDup_deDup (emails : list string) : NoDup (deDup emails).
Proof.
  induction emails as [|x emails IH]; simpl; constructor.
  - rewrite list_elem_of_filter. by intros [Hne _].
  - by apply NoDup_filter.
Qed.

Lemma sublist_deDup (emails : list string) : deDup emails `sublist_of` emails.
Proof.
  induction emails as [|x emails IH]; simpl; [done|].
  apply sublist_skip. etrans; [apply sublist_filter|done].
Qed.

(** C8. When [decrypt] resolves signing keys by sender address, the address
    list is first deduplicated into a normalized list, the keyring is asked
    for exactly that list, and the keys found are concatenated in the order
    of the addresses; finding no key at all is not an error: the engine is
    still called, with the decryption key as the only verification key. *)
Theorem sender_keys_in_address_order `{OpenPGP} (Uint8Array2str : Data → string)
    times message keyring senderAddress selfSigned encryptionKeyIds unlockKey
    format :
  let emails := toArray_spec senderAddress in
  let run := decrypt toArray_spec Uint8Array2str times message keyring
               senderAddress selfSigned encryptionKeyIds unlockKey format in
  NoDup emails ∧
  emails `sublist_of` addresses_of senderAddress ∧
  (∀ email, email ∈ emails ↔ email ∈ addresses_of senderAddress) ∧
  (∀ looked_up, call_getKeyByAddress looked_up ∈ trace run →
                looked_up = emails) ∧
  (∀ key privateKey found,
     getPrivateKeyByIds keyring (ByKeyIds encryptionKeyIds) = inr key →
     unlockKey key = inr privateKey →
     emails ≠ [] →
     getKeyByAddress keyring emails = inr found →
     call_getKeyByAddress emails ∈ trace run ∧
     call_pgpDecrypt message privateKey
       (Some (if bool_decide (flattened found emails = [])
              then [privateKey] else flattened found emails))
       format ∈ trace run).
Proof.
  cbn zeta. split; [apply NoDup_deDup|]. split; [apply sublist_deDup|].
  split; [intros email; apply elem_of_deDup|]. split.
  - intros looked_up Hin. by apply decrypt_lookup_inv in Hin as [-> _].
  - intros key privateKey found Hkey Hpk Hne Hfound. split.
    + by eapply decrypt_lookup_called.
    + eapply decrypt_engine_called; [done..|].
      unfold fulfils. rewrite decrypt_signingKeys_lookup by done.
      by rewrite Hfound.
Qed.

(** ** The operations run on the sample collaborators *)

Local Abbreviation sample_decrypt :=
  (@decrypt Sample.engine toArray_spec Sample.Uint8Array2str).
Local Abbreviation sample_encrypt :=
  (@encrypt Sample.engine Sample.Uint8Array2str Sample.dataURL2str
     Sample.str2Uint8Array).
Local Abbreviation sample_verify := (@verify Sample.engine).
Local Abbreviation sample_sign := (@sign Sample.engine).

(** Deciding membership in a trace that has been computed. *)
Ltac in_trace := vm_compute; repeat constructor.

(** A message from an address the keyring has no key for is verified against
    the unlocked decryption key. *)
Lemma decrypt_verificationKeys_nonempty_witness :
  let run := sample_decrypt [] Sample.hello Sample.keyring
               (OneAddress "carol@example.org") false [] Sample.unlockKey None in
  (toArray_spec (OneAddress "carol@example.org") ≠ [] ∨ false = true) ∧
  call_pgpDecrypt Sample.hello Sample.alice (Some [Sample.alice]) None ∈
    trace run ∧
  ∃ keys, Some [Sample.alice] = Some keys ∧ keys ≠ [].
Proof.
  cbn zeta.
  assert (toArray_spec (OneAddress "carol@example.org") ≠ [] ∨ false = true)
    as Hcond by (left; by vm_compute).
  assert (call_pgpDecrypt Sample.hello Sample.alice (Some [Sample.alice]) None ∈
            trace (sample_decrypt [] Sample.hello Sample.keyring
                     (OneAddress "carol@example.org") false [] Sample.unlockKey
                     None)) as Hin by in_trace.
  split; [done|]. split; [done|].
  destruct (decrypt_verificationKeys_nonempty (H := Sample.engine) toArray_spec
              Sample.Uint8Array2str _ _ _ _ _ _ _ _ _ _ _ _ Hcond Hin)
    as (keys & Hkeys & Hne & _).
  by exists keys.
Defined.

(** Carol's signature verifies, but the keyring has no fingerprint for her
    key ID: her record is invalid and the three records are returned. *)
Lemma lookup_failure_is_absorbed_witness :
  let raws := [Sample.by_carol; Sample.by_bob; Sample.forged] in
  raws !! 0 = Some Sample.by_carol ∧
  ¬ fulfils (verified_valid Sample.by_carol) Unknown ∧
  getFprForKeyId Sample.keyring "ca401" = inl Sample.no_key ∧
  ∃ records r,
    records !! 0 = Some r ∧ valid r = Invalid ∧ fingerprint r = None ∧
    fulfils (mapSignatures (H := Sample.engine) [2; 0; 1] raws Sample.keyring)
      records ∧
    length records = 3.
Proof.
  cbn zeta.
  assert ([Sample.by_carol; Sample.by_bob; Sample.forged] !! 0 =
          Some Sample.by_carol) as Hi by done.
  assert (¬ fulfils (verified_valid Sample.by_carol) Unknown) as Hknown
    by (by vm_compute).
  assert (getFprForKeyId Sample.keyring
            (toHex (OpenPGP := Sample.engine) (keyID Sample.by_carol)) =
          inl Sample.no_key) as Hfpr by done.
  split; [done|]. split; [done|]. split; [done|].
  destruct (lookup_failure_is_absorbed (H := Sample.engine) toArray_spec
              Sample.Uint8Array2str _ _ _ _ _ Hi Hknown Hfpr)
    as (records & r & Hmap & Hr & Hv & Hf & Hall & _).
  exists records, r. repeat split; [done..|].
  by rewrite <- (Forall2_length _ _ _ Hmap).
Defined.

(** The last signature settles first and the first one last: the records
    still come in the order of the signatures. *)
Lemma mapSignatures_keeps_order_witness :
  let raws := [Sample.by_stranger; Sample.by_bob; Sample.forged] in
  ∃ records,
    fulfils (await_all (mapSignature (H := Sample.engine) Sample.keyring <$> raws)
               [2; 1; 0] (replicate 3 None)) records ∧
    keyId <$> records = ["5714"; "b0b"; "b0b"] ∧
    valid <$> records = [Unknown; Valid; Invalid].
Proof.
  cbn zeta.
  destruct (mapSignatures_keeps_order (H := Sample.engine) Sample.keyring
              [Sample.by_stranger; Sample.by_bob; Sample.forged])
    as (records & Hmap & _ & Horder).
  exists records. split.
  - apply Horder. intros i Hi.
    destruct i as [|[|[|i]]]; [in_trace..|simpl in Hi; lia].
  - apply Forall2_cons_inv_l in Hmap as (r1 & ? & H1 & Hmap & ->).
    apply Forall2_cons_inv_l in Hmap as (r2 & ? & H2 & Hmap & ->).
    apply Forall2_cons_inv_l in Hmap as (r3 & ? & H3 & Hmap & ->).
    apply Forall2_nil_inv_l in Hmap as ->.
    vm_compute in H1, H2, H3.
    injection H1 as <-. injection H2 as <-. injection H3 as <-. done.
Defined.

(** The three kinds of outcome of a verification handle. *)
Lemma valid_tri_state_witness :
  fulfils (verified_valid Sample.by_stranger) Unknown ∧
  fulfils (verified_valid Sample.forged) Invalid ∧
  fulfils (verified_valid Sample.by_bob) Valid.
Proof.
  split; [|split].
  - apply (valid_tri_state (H := Sample.engine) Sample.by_stranger).
    eexists. split; [reflexivity|]. by vm_compute.
  - eapply (valid_tri_state (H := Sample.engine) Sample.forged).
    + reflexivity.
    + by vm_compute.
  - by apply (valid_tri_state (H := Sample.engine) Sample.by_bob).
Defined.

(** Without sender address and [selfSigned], the engine gets no verification
    keys and the keyring is not asked for signing keys. *)
Lemma decrypt_without_verification_witness :
  let run := sample_decrypt [] Sample.hello Sample.keyring NoAddress false []
               Sample.unlockKey None in
  toArray_spec NoAddress = [] ∧
  call_pgpDecrypt Sample.hello Sample.alice None None ∈ trace run ∧
  (call_getKeyByAddress [] ∉ trace run) ∧
  ∃ res, fulfils run res ∧
         Forall2 (mapped (H := Sample.engine) Sample.keyring)
           [Sample.by_stranger] (signatures res).
Proof.
  cbn zeta.
  assert (toArray_spec NoAddress = []) as Hnil by done.
  destruct (decrypt_without_verification (H := Sample.engine) toArray_spec
              Sample.Uint8Array2str [] Sample.hello Sample.keyring NoAddress []
              Sample.unlockKey None Hnil) as (Hlook & Hkeys & Hres).
  split; [done|]. split; [in_trace|]. split; [apply Hlook|].
  eexists. split; [vm_compute; reflexivity|].
  destruct (Hres _ eq_refl) as (privateKey & raw & Hraw & Hmap & _).
  injection Hraw as <-. exact Hmap.
Defined.

(** C4 does not hold as stated: the sender address is absent and
    [selfSigned] is not set, yet the result lists the signature the engine
    reported, classified [Unknown]. *)
Lemma decrypt_reports_unverified_signature :
  toArray_spec NoAddress = [] ∧
  fulfils (sample_decrypt [] Sample.hello Sample.keyring NoAddress false []
             Sample.unlockKey None)
    {| data := Text "hello";
       signatures := [{| keyId := "5714"; valid := Unknown; created := None;
                         fingerprint := None |}] |}.
Proof. split; reflexivity. Qed.

(** Every record of a sample decryption obeys the fingerprint rule. *)
Lemma fingerprint_only_when_known_witness :
  let run := sample_decrypt [1; 0] Sample.hello Sample.keyring NoAddress true []
               Sample.unlockKey None in
  ∃ res, fulfils run res ∧ length (signatures res) = 3 ∧
         Forall fingerprint_only_if_known (signatures res).
Proof.
  cbn zeta. eexists. split; [vm_compute; reflexivity|].
  split; [reflexivity|].
  destruct (fingerprint_only_when_known (H := Sample.engine) toArray_spec
              Sample.Uint8Array2str Sample.keyring) as (_ & Hdecrypt & _).
  apply (Hdecrypt [1; 0] Sample.hello NoAddress true [] Sample.unlockKey None).
  vm_compute. reflexivity.
Defined.

(** The user dismisses the passphrase dialog, or the keyring has no private
    key: nothing is decrypted, encrypted or signed. *)
Lemma resolution_failure_aborts_witness :
  key_unavailable Sample.keyring Sample.cancel (ByKeyIds []) ∧
  aborts_before_engine
    (sample_decrypt [] Sample.hello Sample.keyring NoAddress true []
       Sample.cancel None) ∧
  aborts_before_engine
    (sample_encrypt (Some "hello") None Sample.keyring Sample.cancel ["b0b"]
       (Some "a11ce") None true) ∧
  key_unavailable Sample.empty_keyring Sample.unlockKey (ByFingerprint "a11ce") ∧
  aborts_before_engine
    (sample_sign "hello" Sample.empty_keyring Sample.unlockKey "a11ce").
Proof.
  assert (key_unavailable Sample.keyring Sample.cancel (ByKeyIds [])) as Hid
    by (by exists Sample.cancelled).
  assert (key_unavailable Sample.keyring Sample.cancel (ByFingerprint "a11ce"))
    as Hfpr by (by exists Sample.cancelled).
  assert (key_unavailable Sample.empty_keyring Sample.unlockKey
            (ByFingerprint "a11ce")) as Hnone by exact I.
  destruct (resolution_failure_aborts (H := Sample.engine) toArray_spec
              Sample.Uint8Array2str Sample.dataURL2str Sample.str2Uint8Array
              Sample.keyring Sample.cancel) as (Hdecrypt & Hencrypt & _).
  destruct (resolution_failure_aborts (H := Sample.engine) toArray_spec
              Sample.Uint8Array2str Sample.dataURL2str Sample.str2Uint8Array
              Sample.empty_keyring Sample.unlockKey) as (_ & _ & Hsign).
  split; [done|]. split; [|split; [|split; [done|]]].
  - apply Hdecrypt. by left.
  - apply Hencrypt. left. by split.
  - by apply Hsign.
Defined.

(** A repeated address is looked up once; bob's keys come in the order the
    keyring holds them. *)
Lemma sender_keys_in_address_order_witness :
  let senderAddress :=
    Addresses ["bob@example.org"; "carol@example.org"; "bob@example.org"] in
  let run := sample_decrypt [] Sample.hello Sample.keyring senderAddress false
               [] Sample.unlockKey None in
  toArray_spec senderAddress = ["bob@example.org"; "carol@example.org"] ∧
  call_getKeyByAddress ["bob@example.org"; "carol@example.org"] ∈ trace run ∧
  call_pgpDecrypt Sample.hello Sample.alice
    (Some [Sample.bob; Sample.bob_old]) None ∈ trace run.
Proof.
  cbn zeta. split; [reflexivity|].
  destruct (sender_keys_in_address_order (H := Sample.engine)
              Sample.Uint8Array2str [] Sample.hello Sample.keyring
              (Addresses ["bob@example.org"; "carol@example.org";
                          "bob@example.org"])
              false [] Sample.unlockKey None) as (_ & _ & _ & _ & Hrun).
  exact (Hrun Sample.alice_locked Sample.alice
           {[ "bob@example.org" := [Sample.bob; Sample.bob_old] ]}
           eq_refl eq_refl ltac:(by vm_compute) eq_refl).
Defined.

(** With one known recipient the engine encrypts to exactly that key. *)
Lemma encrypt_recipients_witness :
  let run := sample_encrypt (Some "hello") None Sample.keyring Sample.unlockKey
               ["b0b"] (Some "a11ce") None true in
  fulfils (encrypt_message (H := Sample.engine) Sample.dataURL2str
             Sample.str2Uint8Array (Some "hello") None None)
    (Some Sample.hello) ∧
  fulfils (encrypt_signingKey Sample.keyring Sample.unlockKey (Some "a11ce"))
    (Some Sample.alice) ∧
  call_pgpEncrypt (Some Sample.hello) [Sample.bob] (Some Sample.alice)
    "armored" ∈ trace run ∧
  settled run = Fulfilled (Text "ciphertext").
Proof.
  cbn zeta.
  assert (fulfils (encrypt_message (H := Sample.engine) Sample.dataURL2str
                     Sample.str2Uint8Array (Some "hello") None None)
            (Some Sample.hello)) as Hm by reflexivity.
  assert (fulfils (encrypt_signingKey Sample.keyring Sample.unlockKey
                     (Some "a11ce")) (Some Sample.alice)) as Hk by reflexivity.
  split; [done|]. split; [done|].
  destruct (encrypt_recipients (H := Sample.engine) Sample.Uint8Array2str
              Sample.dataURL2str Sample.str2Uint8Array (Some "hello") None
              Sample.keyring Sample.unlockKey ["b0b"] (Some "a11ce") None true
              _ _ Hm Hk) as (Hin & _ & Hrun).
  split; [exact Hin|exact Hrun].
Defined.

(** C9 does not hold as stated: no recipient key is resolved, yet
    [encrypt] does not fail; it invokes the engine with an empty recipient
    list and returns what the engine produced. *)
Lemma encrypt_to_no_recipient :
  let run := sample_encrypt (Some "hello") None Sample.keyring Sample.unlockKey
               [] None None true in
  getKeysByFprs Sample.keyring [] = inr [] ∧
  call_pgpEncrypt (Some Sample.hello) [] None "armored" ∈ trace run ∧
  fulfils run (Text "ciphertext").
Proof. cbn zeta. split; [reflexivity|]. split; [in_trace|reflexivity]. Qed.

(** Two keys are stored for bob's identifier; only the first is used, and the
    unknown identifier adds nothing. *)
Lemma verify_first_key_only_witness :
  let ids := [IdString "b0b"; IdObject {| bytes := "5714" |}] in
  keystore_getKeysForId Sample.keyring "b0b" true =
    Some [Sample.bob; Sample.bob_old] ∧
  call_pgpVerify (Some Sample.hello) [Some Sample.bob] None ∈
    trace (sample_verify [] (Some Sample.hello) None None Sample.keyring ids).
Proof.
  cbn zeta. split; [reflexivity|].
  destruct (verify_first_key_only (H := Sample.engine) []
              (Some Sample.hello) None None Sample.keyring
              [IdString "b0b"; IdObject {| bytes := "5714" |}])
    as (added & Hadded & _ & _ & _ & Hcall).
  specialize (Hcall None (Some Sample.hello) eq_refl).
  apply Forall2_cons_inv_l in Hadded as (first & added' & Hfirst & Hadded & ->).
  apply Forall2_cons_inv_l in Hadded as (none & added'' & Hnone & Hadded & ->).
  apply Forall2_nil_inv_l in Hadded as ->.
  vm_compute in Hfirst, Hnone. subst first none. exact Hcall.
Defined.

(** ** Further properties: the collaborator calls of the mapper *)

Section Promise_all_trace.
Context {A : Type}.
Implicit Types (tasks : list (async A)) (values : list (option A)).

Lemma empty_slot_blocks values i :
  values !! i = Some None → mapM id values = None.
Proof.
  intros Hi. apply mapM_None_2, Exists_exists.
  exists None. split; [by eapply list_elem_of_lookup_2|done].
Qed.

(** While the tasks still to settle have empty slots, every one of them
    runs, once, in the settling order. *)
Lemma await_all_trace_order tasks (vs : list A) order values :
  Forall2 fulfils tasks vs →
  NoDup order →
  (∀ i, i ∈ order → i < length tasks ∧ values !! i = Some None) →
  trace (await_all tasks order values) =
  order ≫= λ i, default [] (trace <$> tasks !! i).
Proof.
  intros Htasks. revert values.
  induction order as [|i order IH]; intros values Hnd Hslots.
  - simpl. by destruct (mapM id values).
  - apply NoDup_cons in Hnd as [Hi Hnd].
    destruct (Hslots i) as [Hlt Hnone]; [by left|].
    cbn [await_all]. rewrite (empty_slot_blocks _ _ Hnone).
    destruct (tasks !! i) as [[tr o]|] eqn:Hti;
      [|apply lookup_ge_None_1 in Hti; by apply Nat.lt_nge in Hlt].
    destruct (Forall2_lookup_l _ _ _ _ _ Htasks Hti) as (v & _ & Hful).
    unfold fulfils, settled in Hful. simpl in Hful. subst o.
    rewrite trace_after, bind_cons.
    assert (default [] (trace <$> tasks !! i) = tr) as ->.
    { by destruct (tasks !! i) as [[tr' o']|]; simplify_eq. }
    f_equal. apply IH; [done|].
    intros j Hj. destruct (Hslots j) as [? ?]; [by right|].
    split; [done|]. rewrite list_lookup_insert_ne; [done|].
    by intros ->.
Qed.

Lemma bind_seq_lookup {B C} (f : C → list B) (pre l : list C) :
  seq (length pre) (length l) ≫= (λ i, default [] (f <$> (pre ++ l) !! i)) =
  l ≫= f.
Proof.
  revert pre. induction l as [|x l IH]; intros pre; [done|].
  cbn [length seq]. rewrite !bind_cons, list_lookup_middle by done.
  cbn [fmap option_fmap option_map default]. f_equal.
  specialize (IH (pre ++ [x])).
  rewrite length_app, Nat.add_1_r, <- app_assoc in IH. exact IH.
Qed.

(** Whatever the settling order, the calls made under [Promise.all] are
    those of its tasks, each task's once. *)
Lemma Promise_all_trace_Permutation times tasks (vs : list A) :
  Forall2 fulfils tasks vs →
  trace (Promise_all times tasks) ≡ₚ tasks ≫= trace.
Proof.
  intros Htasks. unfold Promise_all.
  rewrite (await_all_trace_order tasks vs); [|done|..].
  - unfold settle_order. rewrite merge_sort_Permutation.
    by rewrite <- (bind_seq_lookup trace [] tasks).
  - unfold settle_order. rewrite merge_sort_Permutation. apply NoDup_seq.
  - intros i Hi. unfold settle_order in Hi.
    rewrite merge_sort_Permutation in Hi. apply elem_of_seq in Hi.
    split; [lia|]. apply lookup_replicate_2. lia.
Qed.

End Promise_all_trace.

Section Mapper_calls.
Context `{OpenPGP}.
Implicit Types (keyring : Keyring) (raw : VerificationResult).

Lemma mapSignature_calls keyring raw :
  trace (mapSignature keyring raw) =
  match settled (verified_valid raw) with
  | Fulfilled Unknown => []
  | _ =>
    call_getFprForKeyId (toHex (keyID raw)) ::
    match getFprForKeyId keyring (toHex (keyID raw)) with
    | inl e => [console_log "Error mapping keyId to fingerprint" e]
    | inr _ => []
    end
  end.
Proof.
  unfold mapSignature.
  destruct (verified_valid_total raw) as [t ->].
  destruct (signature_created_total raw) as [c ->].
  destruct t; [| |done]; by destruct (getFprForKeyId keyring _).
Qed.

(** X1. Whatever the order in which the signatures settle, the collaborator
    calls made while mapping them are, up to their order, one fingerprint
    lookup for each signature that is not classified [Unknown], with the hex
    form of its key ID, plus one console message for each lookup that
    throws; a signature classified [Unknown] causes no call, and no lookup
    is repeated. *)
Theorem mapSignatures_calls times keyring (raws : list VerificationResult) :
  trace (mapSignatures times raws keyring) ≡ₚ
  raws ≫= λ raw,
    match settled (verified_valid raw) with
    | Fulfilled Unknown => []
    | _ =>
      call_getFprForKeyId (toHex (keyID raw)) ::
      match getFprForKeyId keyring (toHex (keyID raw)) with
      | inl e => [console_log "Error mapping keyId to fingerprint" e]
      | inr _ => []
      end
    end.
Proof.
  destruct (mapSignatures_mapped keyring raws) as [records Hrec].
  unfold mapSignatures.
  rewrite (Promise_all_trace_Permutation times _ records)
    by by apply Forall2_fmap_l.
  rewrite list_fmap_bind.
  erewrite list_bind_ext; [done| |done].
  intros raw. apply mapSignature_calls.
Qed.

(** X2. The record of a signature always carries the hex form of its key
    ID; its [created] is the creation date of the first packet of the parsed
    signature, and is left out, without any other effect on the record, when
    the signature cannot be read, has no packet, or its first packet has no
    date. *)
Theorem mapped_keyId_created keyring raw r :
  mapped keyring raw r →
  keyId r = toHex (keyID raw) ∧
  created r = match signature raw with
              | inr parsed => head (packets parsed) ≫= packet_created
              | inl _ => None
              end ∧
  ∀ raw' r',
    keyID raw' = keyID raw → verified raw' = verified raw →
    mapped keyring raw' r' →
    valid r' = valid r ∧ fingerprint r' = fingerprint r.
Proof.
  unfold mapped, fulfils, mapSignature. intros Hr.
  split; [|split].
  - revert Hr. destruct (verified_valid_total raw) as [t ->].
    destruct (signature_created_total raw) as [c ->].
    destruct t; simpl; try (by intros [= <-]);
      destruct (getFprForKeyId keyring _); by intros [= <-].
  - revert Hr. destruct (verified_valid_total raw) as [t ->].
    unfold signature_created.
    destruct (signature raw) as [e|parsed]; simpl;
      destruct t; simpl; try (by intros [= <-]);
      destruct (getFprForKeyId keyring _); by intros [= <-].
  - intros raw' r' HkeyID Hverified. revert Hr.
    rewrite !verified_valid_run, HkeyID, Hverified.
    destruct (signature_created_total raw) as [c ->].
    destruct (signature_created_total raw') as [c' ->].
    destruct (verified raw) as [e|[]]; simpl;
      [destruct (String.prefix _ _); simpl|];
      try (by intros [= <-] [= <-]);
      destruct (getFprForKeyId keyring _); by intros [= <-] [= <-].
Qed.

End Mapper_calls.

(** ** Further properties: how the operations settle *)

Section Outcomes.
Context `{OpenPGP}.
Variable toArray : AddressArg → list string.
Variable Uint8Array2str : Data → string.
Variable dataURL2str : string → string.
Variable str2Uint8Array : string → list Byte.byte.
Implicit Types (keyring : Keyring) (unlockKey : Key → result Key).

Local Abbreviation decrypt := (decrypt toArray Uint8Array2str).
Local Abbreviation encrypt := (encrypt Uint8Array2str dataURL2str str2Uint8Array).


Lemma async_ext {A} (m1 m2 : async A) :
  trace m1 = trace m2 → settled m1 = settled m2 → m1 = m2.
Proof. destruct m1, m2. unfold trace, settled. simpl. congruence. Qed.

(** X3. When the normalized sender addresses are not empty, [selfSigned]
    has no effect at all on [decrypt]: the same calls are made and the same
    result is returned with the flag set or not; in particular the
    decryption key is then used for verification only when no key is found
    for the addresses. *)
Theorem selfSigned_only_matters_without_sender times message keyring
    senderAddress encryptionKeyIds unlockKey format :
  toArray senderAddress ≠ [] →
  decrypt times message keyring senderAddress true encryptionKeyIds unlockKey
    format =
  decrypt times message keyring senderAddress false encryptionKeyIds unlockKey
    format.
Proof.
  intros Hne. apply async_ext.
  - rewrite !decrypt_trace.
    destruct (getPrivateKeyByIds keyring _); [done|].
    destruct (unlockKey _); [done|]. cbn zeta.
    by rewrite !decrypt_signingKeys_lookup.
  - rewrite !decrypt_settled.
    destruct (getPrivateKeyByIds keyring _); [done|].
    destruct (unlockKey _); [done|].
    by rewrite !decrypt_signingKeys_lookup.
Qed.


(** X5. [sign] builds the cleartext message first, then resolves and unlocks
    the key, and only then calls the engine, with exactly one signing key:
    the unlocked one.  It is fulfilled exactly when these four steps
    succeed, with the engine's output unchanged; when the message cannot be
    built, it is rejected before the keyring or the unlock callback is
    reached. *)
Theorem sign_outcome data keyring unlockKey signingKeyFpr :
  let run := sign data keyring unlockKey signingKeyFpr in
  (∀ signed,
     fulfils run signed ↔
     ∃ message key signingKey,
       createCleartextMessage data = inr message ∧
       getPrivateKeyByIds keyring (ByFingerprint signingKeyFpr) = inr key ∧
       unlockKey key = inr signingKey ∧
       pgpSign message [signingKey] = inr signed) ∧
  (∀ m keys,
     call_pgpSign m keys ∈ trace run →
     ∃ key signingKey,
       createCleartextMessage data = inr m ∧
       getPrivateKeyByIds keyring (ByFingerprint signingKeyFpr) = inr key ∧
       unlockKey key = inr signingKey ∧ keys = [signingKey]) ∧
  (∀ e, createCleartextMessage data = inl e →
        run = ([call_createCleartextMessage data], Rejected e)).
Proof.
  cbn zeta. unfold fulfils, sign. split; [|split].
  - intros signed. async_unfold.
    destruct (createCleartextMessage data) as [e|message].
    { split; [done|]. by intros (? & ? & ? & ? & _). }
    async_unfold.
    destruct (getPrivateKeyByIds keyring _) as [e|key].
    { split; [done|]. by intros (? & ? & ? & _ & ? & _). }
    async_unfold.
    destruct (unlockKey key) as [e|signingKey] eqn:Hpk.
    { split; [done|]. intros (? & ? & ? & _ & [= <-] & ? & _). congruence. }
    async_unfold.
    destruct (pgpSign message [signingKey]) as [e|result] eqn:Hsign.
    + split; [done|].
      intros (? & ? & ? & [= <-] & [= <-] & ? & ?). congruence.
    + async_unfold. split.
      * intros [= <-]. by exists message, key, signingKey.
      * intros (? & ? & ? & [= <-] & [= <-] & ? & ?). congruence.
  - intros m keys. async_unfold.
    destruct (createCleartextMessage data) as [e|message].
    { intros Hin. apply elem_of_app in Hin as [Hin|Hin];
        [by apply list_elem_of_singleton in Hin|by apply elem_of_nil in Hin]. }
    async_unfold.
    destruct (getPrivateKeyByIds keyring _) as [e|key].
    { intros Hin. repeat (apply elem_of_app in Hin as [Hin|Hin];
        [by apply list_elem_of_singleton in Hin|]).
      by apply elem_of_nil in Hin. }
    async_unfold.
    destruct (unlockKey key) as [e|signingKey] eqn:Hpk.
    { intros Hin. repeat (apply elem_of_app in Hin as [Hin|Hin];
        [by apply list_elem_of_singleton in Hin|]).
      by apply elem_of_nil in Hin. }
    async_unfold. intros Hin.
    repeat (apply elem_of_app in Hin as [Hin|Hin];
      [by apply list_elem_of_singleton in Hin|]).
    apply elem_of_app in Hin as [Hin|Hin].
    + apply list_elem_of_singleton in Hin. injection Hin as -> ->.
      by exists key, signingKey.
    + destruct (pgpSign _ _); by apply elem_of_nil in Hin.
  - intros e He. apply async_eq; async_unfold; by rewrite He.
Qed.

Lemma verify_detached_run message plaintext detachedSignature :
  verify_detached message plaintext detachedSignature =
  if truthy plaintext && truthy detachedSignature then
    let armored := default "" detachedSignature in
    let text := FromText (default "" plaintext) in
    match readSignature armored with
    | inl e => ([call_readSignature armored], Rejected e)
    | inr sig =>
      match createMessage text None with
      | inl e =>
          ([call_readSignature armored; call_createMessage text None],
           Rejected e)
      | inr m =>
          ([call_readSignature armored; call_createMessage text None],
           Fulfilled (Some sig, Some m))
      end
    end
  else ([], Fulfilled (None, message)).
Proof.
  unfold verify_detached.
  destruct (truthy plaintext && truthy detachedSignature); [|done].
  cbn zeta.
  destruct (readSignature _) as [e|sig] eqn:Hsig;
    [|destruct (createMessage _ _) as [e|m] eqn:Hm];
    apply async_eq; async_unfold; rewrite ?Hsig; async_unfold;
    rewrite ?Hm; by async_unfold.
Qed.

(** X6. [verify] has two modes.  With a non-empty plaintext and a non-empty
    detached signature it parses the signature, rebuilds the message from
    the plaintext and verifies these, whatever message the caller passed;
    a signature or plaintext that cannot be read rejects it before the
    engine verifies anything.  Otherwise it reads and builds nothing and
    verifies the caller's message without a separate signature.  In both
    modes it settles as the engine's [verify] does, returning the engine's
    data unchanged with one mapped record per signature. *)
Theorem verify_modes times message plaintext detachedSignature keyring
    signingKeyIds :
  let run := verify times message plaintext detachedSignature keyring
               signingKeyIds in
  let keys := signingKeyIds ≫= first_key keyring in
  let verifies m sig :=
    call_pgpVerify m keys sig ∈ trace run ∧
    match pgpVerify m keys sig with
    | inl e => settled run = Rejected e
    | inr raw =>
        ∃ records,
          Forall2 (mapped keyring) (signatures raw) records ∧
          settled run = Fulfilled {| data := data raw; signatures := records |}
    end in
  let stops e :=
    settled run = Rejected e ∧
    ∀ m keys' sig, call_pgpVerify m keys' sig ∉ trace run in
  if truthy plaintext && truthy detachedSignature then
    match readSignature (default "" detachedSignature) with
    | inl e => stops e
    | inr sig =>
      match createMessage (FromText (default "" plaintext)) None with
      | inl e => stops e
      | inr m => verifies (Some m) (Some sig)
      end
    end
  else
    verifies message None ∧
    (∀ armored, call_readSignature armored ∉ trace run) ∧
    (∀ src filename, call_createMessage src filename ∉ trace run).
Proof.
  cbn zeta. rewrite verify_trace, verify_settled, verify_detached_run.
  assert (∀ (P : event → Prop) m sig,
            (∀ keyId, P (call_getKeysForId (hex_id keyId) true)) →
            (∀ ev, mapper_event ev → P ev) →
            P (call_pgpVerify m (signingKeyIds ≫= first_key keyring) sig) →
            Forall P
              (((λ keyId, call_getKeysForId (hex_id keyId) true)
                  <$> signingKeyIds) ++
               call_pgpVerify m (signingKeyIds ≫= first_key keyring) sig ::
               match pgpVerify m (signingKeyIds ≫= first_key keyring) sig with
               | inl _ => []
               | inr raw => trace (mapSignatures times (signatures raw) keyring)
               end)) as Hall.
  { intros P m sig Hids Hmap Hcall. apply Forall_app. split.
    - apply Forall_fmap, Forall_forall. intros keyId _. apply Hids.
    - constructor; [done|]. destruct (pgpVerify _ _ _) as [?|raw]; [done|].
      eapply Forall_impl; [apply mapSignatures_trace|done]. }
  assert (∀ m sig,
            match pgpVerify m (signingKeyIds ≫= first_key keyring) sig with
            | inl e =>
                match pgpVerify m (signingKeyIds ≫= first_key keyring) sig with
                | inl e => Rejected e
                | inr raw =>
                    match settled (mapSignatures times (signatures raw) keyring)
                    with
                    | Fulfilled records =>
                        Fulfilled {| data := data raw; signatures := records |}
                    | Rejected e => Rejected e
                    | Pending => Pending
                    end
                end = Rejected e
            | inr raw =>
                ∃ records,
                  Forall2 (mapped keyring) (signatures raw) records ∧
                  match pgpVerify m (signingKeyIds ≫= first_key keyring) sig
                  with
                  | inl e => Rejected e
                  | inr raw =>
                      match settled (mapSignatures times (signatures raw)
                                       keyring) with
                      | Fulfilled records =>
                          Fulfilled
                            {| data := data raw; signatures := records |}
                      | Rejected e => Rejected e
                      | Pending => Pending
                      end
                  end =
                  Fulfilled {| data := data raw; signatures := records |}
            end) as Hsettle.
  { intros m sig. destruct (pgpVerify _ _ _) as [e|raw]; [done|].
    destruct (mapSignatures_mapped keyring (signatures raw)) as [rs Hrs].
    exists rs. split; [done|].
    by rewrite (mapSignatures_fulfilled times _ _ _ Hrs). }
  destruct (truthy plaintext && truthy detachedSignature).
  - cbn zeta.
    destruct (readSignature _) as [e|sig].
    { cbn [trace settled fst snd]. split; [done|]. intros m keys' sig Hin.
      apply elem_of_app in Hin as [Hin|Hin].
      - by apply list_elem_of_fmap in Hin as (? & ? & _).
      - rewrite app_nil_r in Hin. by apply list_elem_of_singleton in Hin. }
    destruct (createMessage _ _) as [e|m].
    { cbn [trace settled fst snd]. split; [done|]. intros m keys' sig' Hin.
      apply elem_of_app in Hin as [Hin|Hin].
      - by apply list_elem_of_fmap in Hin as (? & ? & _).
      - rewrite app_nil_r in Hin.
        apply elem_of_cons in Hin as [?|Hin]; [done|].
        by apply list_elem_of_singleton in Hin. }
    cbn [trace settled fst snd]. split; [|apply Hsettle].
    apply elem_of_app. right. do 2 apply list_elem_of_further.
    apply list_elem_of_here.
  - cbn [trace settled fst snd app]. split; [split|split].
    + apply elem_of_app. right. apply list_elem_of_here.
    + apply Hsettle.
    + intros armored Hin.
      eapply Forall_forall in Hin;
        [|apply (Hall (λ ev, ev ≠ call_readSignature armored))]; try done.
      by intros [] ?.
    + intros src filename Hin.
      eapply Forall_forall in Hin;
        [|apply (Hall (λ ev, ev ≠ call_createMessage src filename))];
        try done.
      by intros [] ?.
Qed.

Lemma encrypt_message_run data dataURL filename :
  encrypt_message dataURL2str str2Uint8Array data dataURL filename =
  let source :=
    if truthy data then Some (FromText (default "" data))
    else if truthy dataURL
         then Some (FromBinary
                      (str2Uint8Array (dataURL2str (default "" dataURL))))
         else None in
  match source with
  | Some src =>
      ([call_createMessage src filename],
       match createMessage src filename with
       | inl e => Rejected e
       | inr m => Fulfilled (Some m)
       end)
  | None => ([], Fulfilled None)
  end.
Proof.
  unfold encrypt_message. cbn zeta.
  destruct (truthy data); [|destruct (truthy dataURL); [|done]];
    apply async_eq; async_unfold; destruct (createMessage _ _);
    by async_unfold.
Qed.

Lemma encrypt_signingKey_run keyring unlockKey signingKeyFpr :
  encrypt_signingKey keyring unlockKey signingKeyFpr =
  if truthy signingKeyFpr then
    let fpr := ByFingerprint (default "" signingKeyFpr) in
    match getPrivateKeyByIds keyring fpr with
    | inl e => ([call_getPrivateKeyByIds fpr], Rejected e)
    | inr key =>
        ([call_getPrivateKeyByIds fpr; call_unlockKey key],
         match unlockKey key with
         | inl e => Rejected e
         | inr signingKey => Fulfilled (Some signingKey)
         end)
    end
  else ([], Fulfilled None).
Proof.
  unfold encrypt_signingKey. destruct (truthy signingKeyFpr); [|done].
  cbn zeta.
  destruct (getPrivateKeyByIds keyring _) as [e|key] eqn:Hkey;
    apply async_eq; async_unfold; rewrite ?Hkey; async_unfold; try done;
    destruct (unlockKey key); by async_unfold.
Qed.

(** The arguments of the engine's [encrypt] are the message, the signing key
    and the recipient keys obtained before it. *)
Lemma encrypt_engine_call_inv data dataURL keyring unlockKey encryptionKeyFprs
    signingKeyFpr filename armor m keys signingKey fmt :
  call_pgpEncrypt m keys signingKey fmt ∈
    trace (encrypt data dataURL keyring unlockKey encryptionKeyFprs
             signingKeyFpr filename armor) →
  fulfils (encrypt_message dataURL2str str2Uint8Array data dataURL filename) m ∧
  fulfils (encrypt_signingKey keyring unlockKey signingKeyFpr) signingKey ∧
  getKeysByFprs keyring encryptionKeyFprs = inr keys ∧
  fmt = (if armor then "armored" else "binary").
Proof.
  rewrite encrypt_trace. cbn zeta. unfold fulfils. intros Hin.
  apply elem_of_app in Hin as [Hin|Hin].
  { eapply Forall_forall in Hin; [|apply encrypt_message_trace].
    by destruct Hin. }
  destruct (settled (encrypt_message _ _ _ _ _)) as [m'| |];
    [|by apply elem_of_nil in Hin..].
  apply elem_of_app in Hin as [Hin|Hin].
  { eapply Forall_forall in Hin; [|apply encrypt_signingKey_trace].
    by destruct Hin. }
  destruct (settled (encrypt_signingKey _ _ _)) as [signingKey'| |];
    [|by apply elem_of_nil in Hin..].
  apply elem_of_cons in Hin as [?|Hin]; [done|].
  destruct (getKeysByFprs keyring _) as [e|keys'];
    [by apply elem_of_nil in Hin|].
  apply list_elem_of_singleton in Hin. by injection Hin as -> -> -> ->.
Qed.

(** X7. [encrypt] builds its message from [data] when that is a non-empty
    string, ignoring [dataURL]; otherwise from the decoded bytes of a
    non-empty [dataURL]; and when both are missing or empty it builds no
    message and hands the engine an undefined one.  A message that cannot be
    built rejects [encrypt] before the keyring or the unlock callback is
    reached. *)
Theorem encrypt_message_source data dataURL keyring unlockKey
    encryptionKeyFprs signingKeyFpr filename armor :
  let run := encrypt data dataURL keyring unlockKey encryptionKeyFprs
               signingKeyFpr filename armor in
  let source :=
    if truthy data then Some (FromText (default "" data))
    else if truthy dataURL
         then Some (FromBinary
                      (str2Uint8Array (dataURL2str (default "" dataURL))))
         else None in
  (∀ src name, call_createMessage src name ∈ trace run →
               source = Some src ∧ name = filename) ∧
  (∀ m keys signingKey fmt,
     call_pgpEncrypt m keys signingKey fmt ∈ trace run →
     match source with
     | Some src => ∃ built, createMessage src filename = inr built ∧
                            m = Some built
     | None => m = None
     end) ∧
  (∀ src e, source = Some src → createMessage src filename = inl e →
            run = ([call_createMessage src filename], Rejected e)).
Proof.
  cbn zeta. split; [|split].
  - intros src name. rewrite encrypt_trace. cbn zeta.
    rewrite encrypt_message_run, encrypt_signingKey_run. cbn zeta.
    intros Hin.
    destruct (if truthy data then _ else _) as [src'|].
    + cbn [trace settled fst snd] in Hin.
      apply elem_of_app in Hin as [Hin|Hin].
      { apply list_elem_of_singleton in Hin. by injection Hin as -> ->. }
      destruct (createMessage src' filename); [by apply elem_of_nil in Hin|].
      apply elem_of_app in Hin as [Hin|Hin].
      { destruct (truthy signingKeyFpr); [|by apply elem_of_nil in Hin].
        destruct (getPrivateKeyByIds keyring _);
          repeat (apply elem_of_cons in Hin as [?|Hin]; [done|]);
          by apply elem_of_nil in Hin. }
      destruct (settled _); [|by apply elem_of_nil in Hin..].
      apply elem_of_cons in Hin as [?|Hin]; [done|].
      destruct (getKeysByFprs keyring _); [by apply elem_of_nil in Hin|].
      by apply list_elem_of_singleton in Hin.
    + cbn [trace settled fst snd app] in Hin.
      apply elem_of_app in Hin as [Hin|Hin].
      { destruct (truthy signingKeyFpr); [|by apply elem_of_nil in Hin].
        destruct (getPrivateKeyByIds keyring _);
          repeat (apply elem_of_cons in Hin as [?|Hin]; [done|]);
          by apply elem_of_nil in Hin. }
      destruct (settled _); [|by apply elem_of_nil in Hin..].
      apply elem_of_cons in Hin as [?|Hin]; [done|].
      destruct (getKeysByFprs keyring _); [by apply elem_of_nil in Hin|].
      by apply list_elem_of_singleton in Hin.
  - intros m keys signingKey fmt Hin.
    apply encrypt_engine_call_inv in Hin as (Hm & _).
    unfold fulfils in Hm. rewrite encrypt_message_run in Hm. cbn zeta in Hm.
    destruct (if truthy data then _ else _) as [src|].
    + cbn [settled snd] in Hm.
      destruct (createMessage src filename) as [e|built]; [done|].
      injection Hm as <-. by exists built.
    + by injection Hm.
  - intros src e Hsrc He. apply async_eq.
    + rewrite encrypt_trace. cbn zeta. rewrite encrypt_message_run.
      cbn zeta. rewrite Hsrc. cbn [trace settled fst snd]. by rewrite He.
    + rewrite encrypt_settled, encrypt_message_run. cbn zeta.
      rewrite Hsrc. cbn [settled snd]. by rewrite He.
Qed.

Lemma encrypt_message_events data dataURL filename ev :
  ev ∈ trace (encrypt_message dataURL2str str2Uint8Array data dataURL filename) →
  ∃ src, ev = call_createMessage src filename.
Proof.
  rewrite encrypt_message_run. cbn zeta.
  destruct (if truthy data then _ else _) as [src|];
    [|by intros ?%elem_of_nil].
  intros ->%list_elem_of_singleton. eauto.
Qed.

(** X8. Signing is optional in [encrypt]: without a [signingKeyFpr], or with
    an empty one, the keyring is not asked for a private key, the unlock
    callback is not called, and the engine gets no signing key; with one,
    the private key for that fingerprint is the only key resolved and
    unlocked, and the engine signs with the unlocked key. *)
Theorem encrypt_signing_is_optional data dataURL keyring unlockKey
    encryptionKeyFprs signingKeyFpr filename armor :
  let run := encrypt data dataURL keyring unlockKey encryptionKeyFprs
               signingKeyFpr filename armor in
  let fpr := ByFingerprint (default "" signingKeyFpr) in
  (∀ m keys signingKey fmt,
     call_pgpEncrypt m keys signingKey fmt ∈ trace run →
     if truthy signingKeyFpr then
       ∃ key unlocked,
         getPrivateKeyByIds keyring fpr = inr key ∧
         unlockKey key = inr unlocked ∧ signingKey = Some unlocked
     else signingKey = None) ∧
  (∀ q, call_getPrivateKeyByIds q ∈ trace run →
        truthy signingKeyFpr = true ∧ q = fpr) ∧
  (∀ key, call_unlockKey key ∈ trace run →
          truthy signingKeyFpr = true ∧
          getPrivateKeyByIds keyring fpr = inr key).
Proof.
  cbn zeta.
  assert (∀ ev,
            ev ∈ trace (encrypt data dataURL keyring unlockKey
                          encryptionKeyFprs signingKeyFpr filename armor) →
            (∀ src name, ev ≠ call_createMessage src name) →
            (∀ fprs, ev ≠ call_getKeysByFprs fprs) →
            (∀ m keys key fmt, ev ≠ call_pgpEncrypt m keys key fmt) →
            ev ∈ trace (encrypt_signingKey keyring unlockKey signingKeyFpr))
    as Hsplit.
  { intros ev Hin Hmsg Hkeys Hengine. rewrite encrypt_trace in Hin.
    cbn zeta in Hin. apply elem_of_app in Hin as [Hin|Hin].
    { apply encrypt_message_events in Hin as [src ->].
      by destruct (Hmsg src filename). }
    destruct (settled (encrypt_message _ _ _ _ _));
      [|by apply elem_of_nil in Hin..].
    apply elem_of_app in Hin as [Hin|Hin]; [done|].
    destruct (settled (encrypt_signingKey _ _ _));
      [|by apply elem_of_nil in Hin..].
    apply elem_of_cons in Hin as [->|Hin];
      [by destruct (Hkeys encryptionKeyFprs)|].
    destruct (getKeysByFprs keyring _); [by apply elem_of_nil in Hin|].
    apply list_elem_of_singleton in Hin. subst ev.
    by edestruct Hengine. }
  split; [|split].
  - intros m keys signingKey fmt Hin.
    apply encrypt_engine_call_inv in Hin as (_ & Hk & _).
    unfold fulfils in Hk. rewrite encrypt_signingKey_run in Hk.
    destruct (truthy signingKeyFpr); [|by injection Hk].
    cbn zeta in Hk.
    destruct (getPrivateKeyByIds keyring _) as [e|key]; [done|].
    cbn [settled snd] in Hk.
    destruct (unlockKey key) as [e|unlocked] eqn:Hpk; [done|].
    injection Hk as <-. by exists key, unlocked.
  - intros q Hin. apply Hsplit in Hin; [|done..].
    rewrite encrypt_signingKey_run in Hin.
    destruct (truthy signingKeyFpr); [|by apply elem_of_nil in Hin].
    cbn zeta in Hin. split; [done|].
    destruct (getPrivateKeyByIds keyring _).
    + apply list_elem_of_singleton in Hin. by injection Hin.
    + apply elem_of_cons in Hin as [Hin|Hin]; [by injection Hin|].
      by apply list_elem_of_singleton in Hin.
  - intros key Hin. apply Hsplit in Hin; [|done..].
    rewrite encrypt_signingKey_run in Hin.
    destruct (truthy signingKeyFpr); [|by apply elem_of_nil in Hin].
    cbn zeta in Hin. split; [done|].
    destruct (getPrivateKeyByIds keyring _) as [e|key'].
    + by apply list_elem_of_singleton in Hin.
    + apply elem_of_cons in Hin as [?|Hin]; [done|].
      apply list_elem_of_singleton in Hin. by injection Hin as ->.
Qed.


(** X10. When the private key of [decrypt] cannot be obtained, nothing else
    is touched: the only calls made are the keyring's private-key lookup
    and, if that succeeded, one call of the unlock callback; the sender keys
    are not looked up and no signature is mapped. *)
Theorem decrypt_stops_at_the_key times message keyring senderAddress selfSigned
    encryptionKeyIds unlockKey format :
  key_unavailable keyring unlockKey (ByKeyIds encryptionKeyIds) →
  trace (decrypt times message keyring senderAddress selfSigned
           encryptionKeyIds unlockKey format) =
  call_getPrivateKeyByIds (ByKeyIds encryptionKeyIds) ::
  match getPrivateKeyByIds keyring (ByKeyIds encryptionKeyIds) with
  | inl _ => []
  | inr key => [call_unlockKey key]
  end.
Proof.
  unfold key_unavailable. intros Hun. rewrite decrypt_trace.
  destruct (getPrivateKeyByIds keyring _) as [e|key]; [done|].
  destruct Hun as [e He]. by rewrite He.
Qed.

(** X11. A self-signed message without sender address (a draft) is verified
    against the unlocked decryption key alone, and the keyring is not asked
    for any sender key. *)
Theorem draft_is_verified_with_own_key times message keyring senderAddress
    encryptionKeyIds unlockKey format :
  toArray senderAddress = [] →
  let run := decrypt times message keyring senderAddress true
               encryptionKeyIds unlockKey format in
  (∀ emails, call_getKeyByAddress emails ∉ trace run) ∧
  (∀ m privateKey signingKeys fmt,
     call_pgpDecrypt m privateKey signingKeys fmt ∈ trace run →
     signingKeys = Some [privateKey] ∧
     ∃ key, getPrivateKeyByIds keyring (ByKeyIds encryptionKeyIds) = inr key ∧
            unlockKey key = inr privateKey) ∧
  (∀ key privateKey,
     getPrivateKeyByIds keyring (ByKeyIds encryptionKeyIds) = inr key →
     unlockKey key = inr privateKey →
     call_pgpDecrypt message privateKey (Some [privateKey]) format ∈ trace run).
Proof.
  intros Hnil. cbn zeta. split; [|split].
  - intros emails Hin. by apply decrypt_lookup_inv in Hin as [_ Hne].
  - intros m privateKey signingKeys fmt Hin.
    apply decrypt_engine_call_inv in Hin as (key & Hkey & Hpk & Hsk & _ & _).
    unfold fulfils in Hsk. rewrite Hnil, decrypt_signingKeys_self in Hsk.
    injection Hsk as <-. eauto.
  - intros key privateKey Hkey Hpk.
    eapply decrypt_engine_called; [done..|].
    unfold fulfils. by rewrite Hnil, decrypt_signingKeys_self.
Qed.

End Outcomes.

(** ** The further properties on the sample collaborators *)

(** Bob's signature: hex key ID and the date of its first packet. *)
Lemma mapped_keyId_created_witness :
  ∃ r, mapped (H := Sample.engine) Sample.keyring Sample.by_bob r ∧
       keyId r = "b0b" ∧ created r = Some 1700.
Proof.
  eexists. split; [vm_compute; reflexivity|].
  assert (mapped (H := Sample.engine) Sample.keyring Sample.by_bob
            {| keyId := "b0b"; valid := Valid; created := Some 1700;
               fingerprint := Some "b0b" |}) as Hr by reflexivity.
  destruct (mapped_keyId_created (H := Sample.engine) _ _ _ Hr)
    as (HkeyId & Hcreated & _).
  split; [exact HkeyId|exact Hcreated].
Defined.

(** With bob as sender, the flag makes no difference. *)
Lemma selfSigned_only_matters_without_sender_witness :
  toArray_spec (OneAddress "bob@example.org") ≠ [] ∧
  sample_decrypt [] Sample.hello Sample.keyring
    (OneAddress "bob@example.org") true [] Sample.unlockKey None =
  sample_decrypt [] Sample.hello Sample.keyring
    (OneAddress "bob@example.org") false [] Sample.unlockKey None.
Proof.
  assert (toArray_spec (OneAddress "bob@example.org") ≠ []) as Hne
    by (by vm_compute).
  split; [done|].
  exact (selfSigned_only_matters_without_sender (H := Sample.engine)
           toArray_spec Sample.Uint8Array2str [] Sample.hello Sample.keyring
           (OneAddress "bob@example.org") [] Sample.unlockKey None Hne).
Defined.

(** The passphrase dialog is dismissed: two calls and no more. *)
Lemma decrypt_stops_at_the_key_witness :
  key_unavailable Sample.keyring Sample.cancel (ByKeyIds []) ∧
  trace (sample_decrypt [] Sample.hello Sample.keyring
           (OneAddress "bob@example.org") true [] Sample.cancel None) =
  [call_getPrivateKeyByIds (ByKeyIds []); call_unlockKey Sample.alice_locked].
Proof.
  assert (key_unavailable Sample.keyring Sample.cancel (ByKeyIds [])) as Hun
    by (by exists Sample.cancelled).
  split; [done|].
  exact (decrypt_stops_at_the_key (H := Sample.engine) toArray_spec
           Sample.Uint8Array2str [] Sample.hello Sample.keyring
           (OneAddress "bob@example.org") true [] Sample.cancel None Hun).
Defined.

(** A draft is checked against alice's own key. *)
Lemma draft_is_verified_with_own_key_witness :
  toArray_spec NoAddress = [] ∧
  call_pgpDecrypt Sample.hello Sample.alice (Some [Sample.alice]) None ∈
    trace (sample_decrypt [] Sample.hello Sample.keyring NoAddress true []
             Sample.unlockKey None).
Proof.
  assert (toArray_spec NoAddress = []) as Hnil by done.
  split; [done|].
  destruct (draft_is_verified_with_own_key (H := Sample.engine) toArray_spec
              Sample.Uint8Array2str [] Sample.hello Sample.keyring NoAddress []
              Sample.unlockKey None Hnil) as (_ & _ & Hcall).
  exact (Hcall Sample.alice_locked Sample.alice eq_refl eq_refl).
Defined.
